(** * Entity-sentiment attribution: a model of [predict] in simurg_predict_api.py

    The endpoint capitalises the request text, runs a token-classification
    pipeline over it, glues sub-word pieces together, adds every [@handle]
    token as an organisation, clusters neighbouring organisations and asks a
    sentiment pipeline about the ten characters that follow each cluster.

    The two pipelines and [str.capitalize] are not code of the repository:
    they are the variables of the section [Predict].  Every call to a pipeline
    is recorded in a call log that [predict] threads through. *)

From Stdlib Require Import String Ascii ZArith List Lia Bool Permutation Sorted.
Import ListNotations.
Open Scope Z_scope.

(** ** Python strings

    A [str] is a sequence of Unicode code points; offsets and lengths are
    integers, as the source computes with them. *)

Module PyStr.

Definition str := list Z.

(** A literal with ASCII characters only. *)
Definition lit (s : string) : str :=
  map (fun a => Z.of_N (N_of_ascii a)) (list_ascii_of_string s).

Definition len (s : str) : Z := Z.of_nat (length s).

Fixpoint str_eqb (a b : str) : bool :=
  match a, b with
  | [], [] => true
  | x :: a', y :: b' => (x =? y) && str_eqb a' b'
  | _, _ => false
  end.

(** [s[i:j]]: a negative bound counts from the end, and both bounds are
    clamped to [0, len s]; an empty range gives the empty string. *)
Definition clamp (n i : Z) : Z :=
  if i <? 0 then Z.max (i + n) 0 else Z.min i n.

Definition slice (s : str) (i j : Z) : str :=
  let lo := clamp (len s) i in
  let hi := clamp (len s) j in
  firstn (Z.to_nat (hi - lo)) (skipn (Z.to_nat lo) s).

(** [s.startswith(prefix)] *)
Fixpoint startswith (s prefix : str) {struct prefix} : bool :=
  match prefix with
  | [] => true
  | p :: prefix' =>
      match s with
      | [] => false
      | c :: s' => (c =? p) && startswith s' prefix'
      end
  end.

(** The code points for which [str.isspace] holds, which are the separators
    of [str.split()] without argument. *)
Definition isspace (c : Z) : bool :=
  ((9 <=? c) && (c <=? 13)) || ((28 <=? c) && (c <=? 32))
  || (c =? 133) || (c =? 160) || (c =? 5760)
  || ((8192 <=? c) && (c <=? 8202))
  || (c =? 8232) || (c =? 8233) || (c =? 8239) || (c =? 8287) || (c =? 12288).

(** [s.split()]: the maximal runs of characters that are not white space,
    from left to right.  [word] is the run read so far. *)
Fixpoint split_from (word s : str) : list str :=
  match s with
  | [] => match word with [] => [] | _ => [word] end
  | c :: s' =>
      if isspace c then
        match word with
        | [] => split_from [] s'
        | _ => word :: split_from [] s'
        end
      else split_from (word ++ [c]) s'
  end.

Definition split (s : str) : list str := split_from [] s.

(** [s.find(sub)]: the lowest index at which [sub] occurs in [s], or [-1]. *)
Fixpoint find_from (i : Z) (s sub : str) : Z :=
  if startswith s sub then i
  else match s with
       | [] => -1
       | _ :: s' => find_from (i + 1) s' sub
       end.

Definition find (s sub : str) : Z := find_from 0 s sub.

(** [str.capitalize] on ASCII text: the first character in upper case, the
    others in lower case.  On other text the result depends on the Unicode
    tables of the interpreter, which is why [predict] takes the function as
    a variable; the examples instantiate it with this one. *)
Definition ascii_upper (c : Z) : Z :=
  if (97 <=? c) && (c <=? 122) then c - 32 else c.

Definition ascii_lower (c : Z) : Z :=
  if (65 <=? c) && (c <=? 90) then c + 32 else c.

Definition ascii_capitalize (s : str) : str :=
  match s with
  | [] => []
  | c :: rest => ascii_upper c :: map ascii_lower rest
  end.

(** [sub] occurs in [s] at offset [i]. *)
Definition occurs_at (s sub : str) (i : Z) : Prop :=
  0 <= i /\ i + len sub <= len s /\ slice s i (i + len sub) = sub.

End PyStr.

Import PyStr.

(** ** Data of the endpoint *)

(** One dictionary of the token-classification output, and of the merged
    list built from it: the keys the code reads ([score] is never read).
    The pipeline returns one fresh dictionary per entity, so the in-place
    updates of the merge loop are modelled on values. *)
Record Entity := mkEntity {
  entity_group : str;
  word : str;
  start : Z;
  end_ : Z
}.

(** One element of ["results"]. *)
Record Result := mkResult {
  entity : str;
  sentiment : str
}.

(** The dictionary [predict] returns. *)
Record Output := mkOutput {
  entity_list : list str;
  results : list Result
}.

(** ** Calls to the pipelines

    A computation reads and extends the log of the calls made so far. *)

Inductive Call :=
| NerCall (text : str)
| SentimentCall (text : str).

Definition M (A : Type) : Type := list Call -> A * list Call.

Definition ret {A} (a : A) : M A := fun log => (a, log).

Definition bind {A B} (m : M A) (k : A -> M B) : M B :=
  fun log => let (a, log') := m log in k a log'.

Notation "x <- m ;; k" := (bind m (fun x => k))
  (at level 61, m at next level, right associativity).

(** The result and the calls of a computation started on an empty log. *)
Definition value {A} (m : M A) : A := fst (m []).
Definition calls {A} (m : M A) : list Call := snd (m []).

(** ** Constants of the source *)

Definition ORG : str := lit "ORG".
Definition continuation_marker : str := lit "##".
Definition at_sign : str := lit "@".
Definition context_window_size : Z := 10.

Definition Negative : str := lit "Negative".
Definition Neutral : str := lit "Neutral".
Definition Positive : str := lit "Positive".

Definition olumsuz : str := lit "olumsuz".
Definition olumlu : str := lit "olumlu".
(** "nötr": n, o with diaeresis (U+00F6), t, r. *)
Definition notr : str := [110; 246; 116; 114].

(** ** Sub-word merge (lines 47-58) *)

(** [combined_entities[-1]], when the list is not empty. *)
Definition last_entity (l : list Entity) : option Entity :=
  match rev l with
  | [] => None
  | e :: _ => Some e
  end.

(** One iteration of the loop over [ner_results].  A piece whose word starts
    with the marker, met when an entity has been accumulated, rewrites the
    word and the end of the last accumulated entity; any other piece is
    appended as it is. *)
Definition merge_step (test_sentence : str) (combined_entities : list Entity)
    (entity : Entity) : list Entity :=
  match startswith (word entity) continuation_marker,
        last_entity combined_entities with
  | true, Some prev =>
      let combined_start := start prev in
      let combined_end := end_ entity in
      let full_word := slice test_sentence combined_start combined_end in
      removelast combined_entities ++
        [mkEntity (entity_group prev) full_word (start prev) combined_end]
  | _, _ => combined_entities ++ [entity]
  end.

Definition merge_subwords (test_sentence : str) (ner_results : list Entity)
    : list Entity :=
  fold_left (merge_step test_sentence) ner_results [].

(** ** Mention injection (lines 60-71) *)

Definition mention (test_sentence token : str) : Entity :=
  let start := find test_sentence token in
  let end_ := start + len token in
  mkEntity ORG token start end_.

Definition inject_step (test_sentence : str) (combined_entities : list Entity)
    (token : str) : list Entity :=
  if startswith token at_sign
  then combined_entities ++ [mention test_sentence token]
  else combined_entities.

Definition inject_mentions (test_sentence : str)
    (combined_entities : list Entity) : list Entity :=
  let tokens := split test_sentence in
  fold_left (inject_step test_sentence) tokens combined_entities.

(** ** Filter and sort (lines 73-77) *)

Definition is_org (entity : Entity) : bool :=
  str_eqb (entity_group entity) ORG.

(** [sorted(organizations, key=lambda x: x['start'])]: the sort is stable,
    entities with the same start keep their order. *)
Fixpoint insert_by_start (x : Entity) (l : list Entity) : list Entity :=
  match l with
  | [] => [x]
  | y :: l' =>
      if start x <=? start y then x :: y :: l'
      else y :: insert_by_start x l'
  end.

Fixpoint sorted_by_start (l : list Entity) : list Entity :=
  match l with
  | [] => []
  | x :: l' => insert_by_start x (sorted_by_start l')
  end.

(** ** Label mapping (lines 106-114) *)

Definition sentiment_text_of (sentiment_label : str) : str :=
  if str_eqb sentiment_label Negative then olumsuz
  else if str_eqb sentiment_label Neutral then notr
  else if str_eqb sentiment_label Positive then olumlu
  else notr.

(** The context of a cluster that ends at [end_idx] (lines 96-99). *)
Definition context_of (test_sentence : str) (end_idx : Z) : str :=
  let context_start := end_idx in
  let context_end := Z.min (len test_sentence) (end_idx + context_window_size) in
  slice test_sentence context_start context_end.

Section Predict.

(** [str.capitalize], [ner_pipeline] and [sentiment_pipeline].  The sentiment
    pipeline is called on one string and answers with a one-element list; the
    model keeps the [label] of that element, the only part the code reads. *)
Variable capitalize : str -> str.
Variable ner_pipeline : str -> list Entity.
Variable sentiment_pipeline : str -> str.

Definition call_ner (text : str) : M (list Entity) :=
  fun log => (ner_pipeline text, log ++ [NerCall text]).

Definition call_sentiment (context : str) : M str :=
  fun log => (sentiment_pipeline context, log ++ [SentimentCall context]).

(** ** Clustering and attribution (lines 82-122) *)

(** The end of the outer loop body, once the inner loop has left [end_idx]:
    the context is classified and one element is appended to each list. *)
Definition attribute (test_sentence : str) (org : Entity) (end_idx : Z)
    (acc : list str * list Result) : M (list str * list Result) :=
  let context := context_of test_sentence end_idx in
  sentiment_label <- call_sentiment context ;;
  let sentiment_text := sentiment_text_of sentiment_label in
  ret (fst acc ++ [word org],
       snd acc ++ [mkResult (word org) sentiment_text]).

(** The two nested loops share the index [i]; [rest] is [organizations[i+1:]].
    Each call is one test of the inner loop's condition: when it holds the
    next mention is absorbed, when it fails the body ends with [attribute]
    and the outer loop goes on with the next mention, if there is one. *)
Fixpoint cluster_from (test_sentence : str) (org : Entity) (end_idx : Z)
    (rest : list Entity) (acc : list str * list Result)
    : M (list str * list Result) :=
  match rest with
  | [] => attribute test_sentence org end_idx acc
  | next :: rest' =>
      if start next - end_idx <=? 1
      then cluster_from test_sentence org (end_ next) rest' acc
      else
        acc' <- attribute test_sentence org end_idx acc ;;
        cluster_from test_sentence next (end_ next) rest' acc'
  end.

Definition cluster_loop (test_sentence : str) (organizations : list Entity)
    (acc : list str * list Result) : M (list str * list Result) :=
  match organizations with
  | [] => ret acc
  | org :: rest => cluster_from test_sentence org (end_ org) rest acc
  end.

(** The same loops with the index [i], as they are written.  [fuel] bounds
    the number of tests of a loop condition and [None] is what is left when
    it runs out; [cluster_loop_while] shows that it does not and that the two
    formulations agree. *)
Fixpoint inner_while (fuel : nat) (organizations : list Entity) (i : nat)
    (end_idx : Z) : option (nat * Z) :=
  match fuel with
  | O => None
  | S fuel' =>
      match nth_error organizations (i + 1) with
      | Some next =>
          if start next - end_idx <=? 1
          then inner_while fuel' organizations (i + 1) (end_ next)
          else Some (i, end_idx)
      | None => Some (i, end_idx)
      end
  end.

Fixpoint outer_while (fuel : nat) (test_sentence : str)
    (organizations : list Entity) (i : nat) (acc : list str * list Result)
    : M (option (list str * list Result)) :=
  match fuel with
  | O => ret None
  | S fuel' =>
      match nth_error organizations i with
      | None => ret (Some acc)
      | Some org =>
          match inner_while fuel' organizations i (end_ org) with
          | None => ret None
          | Some (i', end_idx) =>
              acc' <- attribute test_sentence org end_idx acc ;;
              outer_while fuel' test_sentence organizations (i' + 1) acc'
          end
      end
  end.

Definition while_loops (test_sentence : str) (organizations : list Entity)
    (acc : list str * list Result) : M (option (list str * list Result)) :=
  outer_while (S (length organizations)) test_sentence organizations 0 acc.

(** ** The endpoint *)

Definition predict (text : str) : M Output :=
  let test_sentence := text in
  let test_sentence_cap := capitalize test_sentence in
  ner_results <- call_ner test_sentence_cap ;;
  let combined_entities := merge_subwords test_sentence ner_results in
  let combined_entities := inject_mentions test_sentence combined_entities in
  let organizations := filter is_org combined_entities in
  let organizations := sorted_by_start organizations in
  lists <- cluster_loop test_sentence organizations ([], []) ;;
  ret (mkOutput (fst lists) (snd lists)).

End Predict.

(** ** Clusters

    The runs of mentions the inner loop forms, apart from any call: the first
    mention of a run, the mentions absorbed after it, and the end offset the
    loop holds when the run is closed. *)
Record Cluster := mkCluster {
  first_mention : Entity;
  absorbed : list Entity;
  cluster_end : Z
}.

Fixpoint clusters_from (org : Entity) (taken : list Entity) (end_idx : Z)
    (rest : list Entity) : list Cluster :=
  match rest with
  | [] => [mkCluster org taken end_idx]
  | next :: rest' =>
      if start next - end_idx <=? 1
      then clusters_from org (taken ++ [next]) (end_ next) rest'
      else mkCluster org taken end_idx
             :: clusters_from next [] (end_ next) rest'
  end.

Definition clusters (organizations : list Entity) : list Cluster :=
  match organizations with
  | [] => []
  | org :: rest => clusters_from org [] (end_ org) rest
  end.

Definition members (c : Cluster) : list Entity :=
  first_mention c :: absorbed c.

(** The sorted organisation list [predict] builds from the text and the
    output of the token-classification pipeline (lines 47-77). *)
Definition organizations_of (test_sentence : str) (ner_results : list Entity)
    : list Entity :=
  sorted_by_start
    (filter is_org
       (inject_mentions test_sentence
          (merge_subwords test_sentence ner_results))).

(** The two output lists go together: one name per result. *)
Definition aligned (acc : list str * list Result) : Prop :=
  fst acc = map entity (snd acc).

(** [s] can be read off the text by a slice. *)
Definition drawn_from (text s : str) : Prop :=
  exists i j, s = slice text i j.

(** The tokens the injection loop keeps. *)
Definition is_mention (token : str) : bool := startswith token at_sign.

(** The order of the sorted list. *)
Definition start_le (a b : Entity) : Prop := start a <= start b.

(** The user-facing labels. *)
Definition sentiment_texts : list str := [olumlu; olumsuz; notr].

(** Every name [predict] reports can be read off the original text. *)
Definition outputs_from_original (capitalize : str -> str)
    (ner_pipeline : str -> list Entity) (sentiment_pipeline : str -> str)
    (text : str) : Prop :=
  forall e,
    In e (entity_list
            (value (predict capitalize ner_pipeline sentiment_pipeline text))) ->
    drawn_from text e.

(** The span of an entity lies in the text and its word is the text there. *)
Definition spans_text (text : str) (e : Entity) : Prop :=
  0 <= start e <= end_ e /\ end_ e <= len text /\
  slice text (start e) (end_ e) = word e.

(** Each mention of the list starts at most one past the end of the one
    before it, [prev] being before the first. *)
Fixpoint chained (prev : Entity) (l : list Entity) : Prop :=
  match l with
  | [] => True
  | x :: l' => start x - end_ prev <= 1 /\ chained x l'
  end.

(** Each cluster starts more than one past the end of the one before it. *)
Fixpoint separated (cs : list Cluster) : Prop :=
  match cs with
  | [] => True
  | c :: cs' =>
      match cs' with
      | [] => True
      | c' :: _ => 1 < start (first_mention c') - cluster_end c
      end /\ separated cs'
  end.

(** What the loop emits for one cluster. *)
Definition cluster_name (c : Cluster) : str := word (first_mention c).

Definition cluster_call (test_sentence : str) (c : Cluster) : Call :=
  SentimentCall (context_of test_sentence (cluster_end c)).

Definition cluster_result (sentiment_pipeline : str -> str)
    (test_sentence : str) (c : Cluster) : Result :=
  mkResult (cluster_name c)
    (sentiment_text_of
       (sentiment_pipeline (context_of test_sentence (cluster_end c)))).

(** A piece the merge loop glues to the entity before it, and one that
    opens an entity of its own. *)
Definition is_continuation (e : Entity) : bool :=
  startswith (word e) continuation_marker.

Definition is_head (e : Entity) : bool := negb (is_continuation e).

(** What a run of pieces from [head] to [last_piece] is merged into. *)
Definition merged (test_sentence : str) (head last_piece : Entity) : Entity :=
  mkEntity (entity_group head)
    (slice test_sentence (start head) (end_ last_piece))
    (start head) (end_ last_piece).

(** The entities of a list that start at [k], in the order of the list. *)
Definition starting_at (k : Z) (l : list Entity) : list Entity :=
  filter (fun e => start e =? k) l.

(** The texts the sentiment pipeline was called on, in the order of a log. *)
Definition sentiment_calls (log : list Call) : list str :=
  flat_map (fun c => match c with
                     | SentimentCall t => [t]
                     | NerCall _ => []
                     end) log.

(** Each mention of the list starts more than one past the end of the one
    before it, [prev] being before the first. *)
Fixpoint apart (prev : Entity) (l : list Entity) : Prop :=
  match l with
  | [] => True
  | x :: l' => 1 < start x - end_ prev /\ apart x l'
  end.

(** The cluster of a mention that absorbs nothing. *)
Definition alone (e : Entity) : Cluster := mkCluster e [] (end_ e).

(** The span of an entity does not end before it starts. *)
Definition well_formed (e : Entity) : Prop := start e <= end_ e.

(** The first cluster ends more than one before the second one starts. *)
Definition before (c c' : Cluster) : Prop :=
  1 < start (first_mention c') - cluster_end c.

(** [s] is a contiguous piece of the text. *)
Definition piece_of (text s : str) : Prop :=
  exists pre post, text = pre ++ s ++ post.

(** ** [str.capitalize]

    The tables of the Unicode character database that the interpreter reads:
    the full title-case and lower-case mappings of a character, and the two
    properties that decide how a capital sigma is lowered.  They are not part
    of the repository and are taken as they come. *)
Record CaseTables := mkCaseTables {
  to_title_full : Z -> list Z;
  to_lower_full : Z -> list Z;
  is_cased : Z -> bool;
  is_case_ignorable : Z -> bool
}.

Definition first_not_ignorable (tables : CaseTables) (s : str) : option Z :=
  List.find (fun c => negb (is_case_ignorable tables c)) s.

(** A capital sigma (U+03A3) becomes a final sigma (U+03C2) when a cased
    character comes before it and none comes after it, case-ignorable
    characters skipped on both sides, and a small sigma (U+03C3) otherwise.
    [before] holds the characters before the sigma, the nearest first. *)
Definition lower_sigma (tables : CaseTables) (before after : str) : Z :=
  let cased_before :=
    match first_not_ignorable tables before with
    | Some c => is_cased tables c
    | None => false
    end in
  let none_after :=
    match first_not_ignorable tables after with
    | Some c => negb (is_cased tables c)
    | None => true
    end in
  if cased_before && none_after then 962 else 963.

Fixpoint lower_rest (tables : CaseTables) (before rest : str) : str :=
  match rest with
  | [] => []
  | c :: rest' =>
      (if c =? 931 then [lower_sigma tables before rest']
       else to_lower_full tables c)
      ++ lower_rest tables (c :: before) rest'
  end.

(** [s.capitalize()]: the first character in title case (upper case for a
    letter that has a single capital form), the others in lower case; the
    empty string is returned as it is. *)
Definition py_capitalize (tables : CaseTables) (s : str) : str :=
  match s with
  | [] => []
  | c :: rest => to_title_full tables c ++ lower_rest tables [c] rest
  end.

(** The tables on ASCII characters, for the examples. *)
Definition ascii_tables : CaseTables :=
  mkCaseTables
    (fun c => [ascii_upper c])
    (fun c => [ascii_lower c])
    (fun c => ((65 <=? c) && (c <=? 90)) || ((97 <=? c) && (c <=? 122)))
    (fun c => (c =? 39) || (c =? 46) || (c =? 58) || (c =? 94) || (c =? 96)).

(** ** Runs of pieces

    The output of the tagger cut into runs: a piece and the continuation
    pieces that follow it, which the merge loop glues to it. *)
Fixpoint runs_from (head : Entity) (conts : list Entity)
    (tags : list Entity) : list (Entity * list Entity) :=
  match tags with
  | [] => [(head, conts)]
  | t :: tags' =>
      if is_continuation t then runs_from head (conts ++ [t]) tags'
      else (head, conts) :: runs_from t [] tags'
  end.

Definition runs (tags : list Entity) : list (Entity * list Entity) :=
  match tags with
  | [] => []
  | t :: tags' => runs_from t [] tags'
  end.

(** What a run leaves in the merged list: the piece as the tagger gave it
    when no continuation follows, and otherwise the entity that spans the
    run, with its word sliced from the original text. *)
Definition entity_of_run (test_sentence : str) (r : Entity * list Entity)
    : Entity :=
  match snd r with
  | [] => fst r
  | c :: cs => merged test_sentence (fst r) (last cs c)
  end.

(** Where an entity of the organisation list comes from: a piece of the
    tagger that no continuation follows, taken as it is; a run of pieces,
    with the word sliced from the original text over the span of the run;
    or a token of the original text that starts with [@]. *)
Definition origin (text : str) (tags : list Entity) (e : Entity) : Prop :=
  (In (e, []) (runs tags) /\ In e tags)
  \/ (exists head c cs,
        In (head, c :: cs) (runs tags) /\
        e = merged text head (last cs c) /\
        word e = slice text (start head) (end_ (last cs c)))
  \/ (exists token,
        In token (split text) /\ is_mention token = true /\
        e = mention text token /\
        word e = token /\ slice text (start e) (end_ e) = token).

(** ** Fakes for the examples *)

Definition no_entities : str -> list Entity := fun _ => [].
Definition always (label : str) : str -> str := fun _ => label.

(** Two pieces of one organisation, the second one a continuation. *)
Definition turk_cell : str -> list Entity := fun _ =>
  [mkEntity ORG (lit "Turk") 0 4; mkEntity ORG (lit "##cell") 4 8].

(** Two organisations one space apart, neither a continuation. *)
Definition turk_and_cell : str -> list Entity := fun _ =>
  [mkEntity ORG (lit "Turk") 0 4; mkEntity ORG (lit "Cell") 5 9].

(** A person and no organisation. *)
Definition one_person : str -> list Entity := fun _ =>
  [mkEntity (lit "PER") (lit "Ali") 0 3].

(** Three pieces of one word after a person; the middle piece carries
    another group. *)
Definition ali_turkcell : list Entity :=
  [mkEntity (lit "PER") (lit "Ali") 0 3;
   mkEntity ORG (lit "Tur") 4 7;
   mkEntity (lit "PER") (lit "##k") 7 8;
   mkEntity ORG (lit "##cell") 8 12].

(** A tagger that reports the first four characters of what it is given as
    an organisation, with the word as it reads it. *)
Definition first_four : str -> list Entity := fun s =>
  [mkEntity ORG (slice s 0 4) 0 4].

(** * Facts *)

Example slice_ex1 : slice (lit "Turkcell enjoyed") 0 8 = lit "Turkcell".
Proof. reflexivity. Qed.

Example slice_ex2 : slice (lit "abcdef") (-3) 7 = lit "def".
Proof. reflexivity. Qed.

Example slice_ex3 : slice (lit "abcdef") 4 2 = [].
Proof. reflexivity. Qed.

Example split_ex : split (lit "  Hello @Acme  world ") =
                   [lit "Hello"; lit "@Acme"; lit "world"].
Proof. reflexivity. Qed.

Example find_ex1 : find (lit "x @a y @a") (lit "@a") = 2.
Proof. reflexivity. Qed.

Example find_ex2 : find (lit "abc") (lit "zz") = -1.
Proof. reflexivity. Qed.

Example capitalize_ex : ascii_capitalize (lit "aCME rocks") = lit "Acme rocks".
Proof. reflexivity. Qed.

(** ** Strings *)

Module PyStrFacts.

Lemma len_nonneg (s : str) : 0 <= len s.
Proof. unfold len; lia. Qed.

Lemma len_app (a b : str) : len (a ++ b) = len a + len b.
Proof. unfold len; rewrite length_app; lia. Qed.

Lemma str_eqb_eq (a b : str) : str_eqb a b = true <-> a = b.
Proof.
  revert b; induction a as [|x a IH]; intros [|y b]; simpl;
    try (split; [discriminate | discriminate]); try tauto.
  rewrite andb_true_iff, Z.eqb_eq, IH.
  split; [intros [-> ->]; reflexivity | intros E; inversion E; auto].
Qed.

Lemma str_eqb_refl (a : str) : str_eqb a a = true.
Proof. apply str_eqb_eq; reflexivity. Qed.

Lemma str_eqb_neq (a b : str) : str_eqb a b = false <-> a <> b.
Proof.
  rewrite <- str_eqb_eq; destruct (str_eqb a b); split; congruence.
Qed.

Lemma startswith_iff (s prefix : str) :
  startswith s prefix = true <-> exists t, s = prefix ++ t.
Proof.
  revert s; induction prefix as [|p prefix IH]; intros s; simpl.
  - split; [intros _; exists s; reflexivity | reflexivity].
  - destruct s as [|c s].
    + split; [discriminate | intros [t E]; discriminate].
    + rewrite andb_true_iff, Z.eqb_eq, IH; split.
      * intros [-> [t ->]]; exists t; reflexivity.
      * intros [t E]; inversion E; subst; eauto.
Qed.

Lemma startswith_app (prefix t : str) : startswith (prefix ++ t) prefix = true.
Proof. apply startswith_iff; eauto. Qed.

(** A slice between offsets of the string is a [firstn] of a [skipn]. *)
Lemma slice_inside (s : str) (i j : Z) :
  0 <= i <= j -> j <= len s ->
  slice s i j = firstn (Z.to_nat (j - i)) (skipn (Z.to_nat i) s).
Proof.
  intros Hi Hj; unfold slice, clamp.
  destruct (Z.ltb_spec i 0); [lia|].
  destruct (Z.ltb_spec j 0); [lia|].
  rewrite !Z.min_l by lia; reflexivity.
Qed.

Lemma slice_middle (pre tok post : str) :
  slice (pre ++ tok ++ post) (len pre) (len pre + len tok) = tok.
Proof.
  rewrite slice_inside.
  - replace (len pre + len tok - len pre) with (len tok) by lia.
    unfold len; rewrite !Nat2Z.id.
    rewrite skipn_app, skipn_all, Nat.sub_diag; simpl.
    rewrite firstn_app, firstn_all, Nat.sub_diag; simpl.
    apply app_nil_r.
  - pose proof (len_nonneg pre); pose proof (len_nonneg tok); lia.
  - rewrite !len_app; pose proof (len_nonneg post); lia.
Qed.

(** An occurrence at [k], read on the suffix that starts at [k]. *)
Lemma occurs_at_startswith (s sub : str) (k : nat) :
  (k <= length s)%nat ->
  startswith (skipn k s) sub = true ->
  occurs_at s sub (Z.of_nat k).
Proof.
  intros Hk H; apply startswith_iff in H; destruct H as [t E].
  assert (Es : exists pre, s = pre ++ sub ++ t /\ Z.of_nat k = len pre).
  { exists (firstn k s); split.
    - rewrite <- E; symmetry; apply firstn_skipn.
    - unfold len; rewrite length_firstn; lia. }
  destruct Es as (pre & -> & Ek); clear E Hk.
  unfold occurs_at; repeat split.
  - lia.
  - rewrite !len_app, <- Ek; pose proof (len_nonneg t); lia.
  - rewrite Ek; apply slice_middle.
Qed.

Lemma startswith_occurs_at (s sub : str) (k : nat) :
  occurs_at s sub (Z.of_nat k) -> startswith (skipn k s) sub = true.
Proof.
  intros (_ & Hle & E).
  rewrite slice_inside in E by (pose proof (len_nonneg sub); lia).
  rewrite Nat2Z.id in E.
  apply startswith_iff; exists (skipn (length sub) (skipn k s)).
  rewrite <- E at 1.
  replace (Z.to_nat (Z.of_nat k + len sub - Z.of_nat k)) with (length sub)
    by (unfold len; lia).
  symmetry; apply firstn_skipn.
Qed.

(** What [find_from] returns: [-1] when no suffix of [s] starts with [sub],
    and otherwise [i] plus the least [k] whose suffix does. *)
Lemma find_from_spec (sub s : str) (i : Z) :
  (find_from i s sub = -1 /\
   forall k, (k <= length s)%nat -> startswith (skipn k s) sub = false)
  \/ (exists k, find_from i s sub = i + Z.of_nat k /\ (k <= length s)%nat /\
        startswith (skipn k s) sub = true /\
        forall j, (j < k)%nat -> startswith (skipn j s) sub = false).
Proof.
  revert i; induction s as [|c s IH]; intros i.
  - unfold find_from; destruct (startswith [] sub) eqn:E.
    + right; exists 0%nat; simpl; rewrite E.
      repeat split; [lia | lia | intros j Hj; lia].
    + left; split; [reflexivity|].
      intros k Hk; simpl in Hk; rewrite skipn_nil; exact E.
  - cbn [find_from]; destruct (startswith (c :: s) sub) eqn:E.
    + right; exists 0%nat; simpl skipn; rewrite E.
      repeat split; [lia | simpl; lia | intros j Hj; lia].
    + destruct (IH (i + 1)) as [[H1 H2] | (k & H1 & H2 & H3 & H4)].
      * left; split; [exact H1|].
        intros [|k] Hk; [exact E | simpl in *; apply H2; lia].
      * right; exists (S k); repeat split.
        -- rewrite H1; lia.
        -- simpl; lia.
        -- exact H3.
        -- intros [|j] Hj; [exact E | simpl; apply H4; lia].
Qed.

(** [find] succeeds on a string that contains [sub], at the first
    occurrence. *)
Lemma find_substring (pre sub post : str) :
  let s := pre ++ sub ++ post in
  occurs_at s sub (find s sub) /\
  forall j, 0 <= j < find s sub -> ~ occurs_at s sub j.
Proof.
  intros s; unfold find.
  destruct (find_from_spec sub s 0) as [[_ H] | (k & E & Hk & Hs & Hfirst)].
  - exfalso.
    specialize (H (length pre)).
    unfold s in H; rewrite skipn_app, skipn_all, Nat.sub_diag in H.
    simpl in H; rewrite startswith_app in H.
    rewrite length_app in H; assert (true = false) by (apply H; lia).
    discriminate.
  - rewrite E; simpl; split.
    + apply occurs_at_startswith; assumption.
    + intros j Hj Hocc.
      replace j with (Z.of_nat (Z.to_nat j)) in Hocc by lia.
      apply startswith_occurs_at in Hocc.
      rewrite Hfirst in Hocc by lia; discriminate.
Qed.

(** Every token of [split] is a piece of the text. *)
Lemma split_from_substring (s word pre tok : str) :
  In tok (split_from word s) ->
  exists p q, pre ++ word ++ s = p ++ tok ++ q.
Proof.
  revert word pre; induction s as [|c s IH]; intros word pre Hin.
  - destruct word as [|w word]; simpl in Hin; [contradiction|].
    destruct Hin as [<- | []]; exists pre, []; reflexivity.
  - simpl in Hin; destruct (isspace c).
    + destruct word as [|w word].
      * destruct (IH [] (pre ++ [c]) Hin) as (p & q & E).
        exists p, q; rewrite <- E; simpl; rewrite <- app_assoc; reflexivity.
      * destruct Hin as [<- | Hin]; [exists pre, (c :: s); reflexivity|].
        destruct (IH [] (pre ++ (w :: word) ++ [c]) Hin) as (p & q & E).
        exists p, q; rewrite <- E; simpl.
        rewrite <- !app_assoc; simpl; rewrite <- app_assoc; reflexivity.
    + destruct (IH (word ++ [c]) pre Hin) as (p & q & E).
      exists p, q; rewrite <- E, <- app_assoc; reflexivity.
Qed.

Lemma split_substring (s tok : str) :
  In tok (split s) -> exists p q, s = p ++ tok ++ q.
Proof. intros H; exact (split_from_substring s [] [] tok H). Qed.

End PyStrFacts.

Import PyStrFacts.

(** ** The stable sort *)

Lemma insert_by_start_perm (x : Entity) (l : list Entity) :
  Permutation (x :: l) (insert_by_start x l).
Proof.
  induction l as [|y l IH]; simpl; [reflexivity|].
  destruct (start x <=? start y); [reflexivity|].
  rewrite perm_swap; apply perm_skip; exact IH.
Qed.

Lemma sorted_by_start_perm (l : list Entity) :
  Permutation l (sorted_by_start l).
Proof.
  induction l as [|x l IH]; simpl; [constructor|].
  rewrite <- insert_by_start_perm; apply perm_skip; exact IH.
Qed.

Lemma sorted_by_start_In (l : list Entity) (x : Entity) :
  In x (sorted_by_start l) <-> In x l.
Proof.
  split; apply Permutation_in;
    [symmetry|]; apply sorted_by_start_perm.
Qed.

Lemma insert_by_start_sorted (x : Entity) (l : list Entity) :
  LocallySorted start_le l -> LocallySorted start_le (insert_by_start x l).
Proof.
  induction 1 as [|y|y z l Hl IH Hyz]; simpl.
  - constructor.
  - destruct (Z.leb_spec (start x) (start y)); repeat constructor;
      unfold start_le; lia.
  - simpl in IH.
    destruct (Z.leb_spec (start x) (start y)).
    + repeat constructor; assumption.
    + destruct (Z.leb_spec (start x) (start z)).
      * repeat constructor; try assumption; unfold start_le; lia.
      * constructor; assumption.
Qed.

Lemma sorted_by_start_sorted (l : list Entity) :
  LocallySorted start_le (sorted_by_start l).
Proof.
  induction l as [|x l IH]; simpl;
    [constructor | apply insert_by_start_sorted; exact IH].
Qed.

(** ** The clustering loop *)

(** The loop emits, for each run of [clusters_from] in turn, one name, one
    result and one call. *)
Lemma cluster_from_clusters sentiment_pipeline test_sentence rest :
  forall org taken end_idx acc log,
    cluster_from sentiment_pipeline test_sentence org end_idx rest acc log =
    let cs := clusters_from org taken end_idx rest in
    ((fst acc ++ map cluster_name cs,
      snd acc ++ map (cluster_result sentiment_pipeline test_sentence) cs),
     log ++ map (cluster_call test_sentence) cs).
Proof.
  induction rest as [|next rest IH]; intros org taken end_idx acc log.
  - reflexivity.
  - cbn [cluster_from clusters_from].
    destruct (start next - end_idx <=? 1).
    + apply IH.
    + cbv beta iota zeta delta [bind attribute call_sentiment ret].
      rewrite (IH next [] (end_ next)); cbn [fst snd map].
      rewrite <- !app_assoc; reflexivity.
Qed.

Lemma cluster_loop_clusters sentiment_pipeline test_sentence organizations
    acc log :
  cluster_loop sentiment_pipeline test_sentence organizations acc log =
  let cs := clusters organizations in
  ((fst acc ++ map cluster_name cs,
    snd acc ++ map (cluster_result sentiment_pipeline test_sentence) cs),
   log ++ map (cluster_call test_sentence) cs).
Proof.
  destruct organizations as [|org rest]; simpl.
  - rewrite !app_nil_r; destruct acc; reflexivity.
  - apply cluster_from_clusters.
Qed.

(** The loops with an index compute what the recursion on the list does,
    within the fuel of one test per mention and one more. *)
Lemma while_from sentiment_pipeline text rest :
  forall pre x org end_idx acc fuel1 fuel2 log,
    (length rest < fuel1)%nat -> (length rest < fuel2)%nat ->
    match inner_while fuel1 ((pre ++ [x]) ++ rest) (length pre) end_idx with
    | None => (None, log)
    | Some (i', end_idx') =>
        (acc' <- attribute sentiment_pipeline text org end_idx' acc ;;
         outer_while sentiment_pipeline fuel2 text ((pre ++ [x]) ++ rest)
           (i' + 1) acc') log
    end =
    let (r, log') :=
      cluster_from sentiment_pipeline text org end_idx rest acc log in
    (Some r, log').
Proof.
  induction rest as [|next rest IH];
    intros pre x org end_idx acc fuel1 fuel2 log H1 H2.
  - destruct fuel1 as [|fuel1]; [simpl in H1; lia|].
    destruct fuel2 as [|fuel2]; [simpl in H2; lia|].
    rewrite app_nil_r; cbn [inner_while cluster_from].
    assert (E : nth_error (pre ++ [x]) (length pre + 1) = None)
      by (apply nth_error_None; rewrite length_app; simpl; lia).
    rewrite E.
    cbv beta iota zeta delta [bind attribute call_sentiment ret].
    cbn [outer_while]; rewrite E; reflexivity.
  - destruct fuel1 as [|fuel1]; [simpl in H1; lia|].
    destruct fuel2 as [|fuel2]; [simpl in H2; lia|].
    simpl in H1, H2.
    assert (E : nth_error ((pre ++ [x]) ++ next :: rest) (length pre + 1) =
                Some next).
    { rewrite nth_error_app2 by (rewrite length_app; simpl; lia).
      rewrite length_app; simpl.
      replace (length pre + 1 - (length pre + 1))%nat with 0%nat by lia.
      reflexivity. }
    assert (L : (length pre + 1 = length (pre ++ [x]))%nat)
      by (rewrite length_app; reflexivity).
    assert (A : (pre ++ [x]) ++ next :: rest =
                ((pre ++ [x]) ++ [next]) ++ rest)
      by (rewrite <- (app_assoc _ [next]); reflexivity).
    cbn [inner_while cluster_from]; rewrite E.
    destruct (start next - end_idx <=? 1).
    + rewrite A, L.
      apply (IH (pre ++ [x]) next org (end_ next) acc fuel1 (S fuel2) log);
        lia.
    + cbv beta iota zeta delta [bind attribute call_sentiment ret].
      cbn [outer_while]; rewrite E.
      rewrite A, L.
      match goal with
      | |- _ ?l = (let (_, _) := cluster_from _ _ _ _ _ ?a _ in _) =>
          pose proof (IH (pre ++ [x]) next next (end_ next) a fuel2 fuel2 l
                        ltac:(lia) ltac:(lia)) as IH'
      end.
      destruct (inner_while fuel2 _ _ _) as [[i' end_idx']|]; exact IH'.
Qed.

Lemma cluster_loop_while sentiment_pipeline text organizations acc log :
  while_loops sentiment_pipeline text organizations acc log =
  let (r, log') :=
    cluster_loop sentiment_pipeline text organizations acc log in
  (Some r, log').
Proof.
  unfold while_loops; destruct organizations as [|org rest]; [reflexivity|].
  cbn [length cluster_loop].
  pose proof (while_from sentiment_pipeline text rest [] org org (end_ org)
                acc (S (length rest)) (S (length rest)) log
                ltac:(lia) ltac:(lia)) as H.
  remember (S (length rest)) as fuel eqn:Hfuel; clear Hfuel.
  cbn [outer_while nth_error]; cbn [app length] in H.
  destruct (inner_while fuel (org :: rest) 0 (end_ org))
    as [[i' end_idx']|]; exact H.
Qed.

(** The runs partition the list, in order. *)
Lemma clusters_from_members (rest : list Entity) :
  forall org taken end_idx,
    concat (map members (clusters_from org taken end_idx rest)) =
    org :: taken ++ rest.
Proof.
  induction rest as [|next rest IH]; intros org taken end_idx; simpl.
  - unfold members; simpl; rewrite !app_nil_r; reflexivity.
  - destruct (start next - end_idx <=? 1).
    + rewrite IH, <- app_assoc; reflexivity.
    + simpl; rewrite IH; reflexivity.
Qed.

Lemma clusters_members (organizations : list Entity) :
  concat (map members (clusters organizations)) = organizations.
Proof.
  destruct organizations as [|org rest]; [reflexivity|].
  unfold clusters; rewrite clusters_from_members; reflexivity.
Qed.

(** The end of a run is the end of its last member. *)
Lemma clusters_from_end (rest : list Entity) :
  forall org taken end_idx c,
    end_idx = end_ (last taken org) ->
    In c (clusters_from org taken end_idx rest) ->
    cluster_end c = end_ (last (absorbed c) (first_mention c)).
Proof.
  induction rest as [|next rest IH]; intros org taken end_idx c He; simpl.
  - intros [<- | []]; exact He.
  - destruct (start next - end_idx <=? 1).
    + apply IH; rewrite last_last; reflexivity.
    + intros [<- | Hin]; [exact He|].
      revert Hin; apply IH; reflexivity.
Qed.

Lemma clusters_end (organizations : list Entity) (c : Cluster) :
  In c (clusters organizations) ->
  cluster_end c = end_ (last (absorbed c) (first_mention c)).
Proof.
  destruct organizations as [|org rest]; [intros []|].
  apply clusters_from_end; reflexivity.
Qed.

(** Inside a run the mentions are chained, and the runs are separated. *)
Lemma last_cons (l : list Entity) (x d : Entity) :
  last (x :: l) d = last l x.
Proof.
  revert x d; induction l as [|y l IH]; intros x d; [reflexivity|].
  change (last (x :: y :: l) d) with (last (y :: l) d).
  rewrite (IH y d), (IH y x); reflexivity.
Qed.

Lemma chained_snoc (l : list Entity) :
  forall prev x,
    chained prev l -> start x - end_ (last l prev) <= 1 ->
    chained prev (l ++ [x]).
Proof.
  induction l as [|y l IH]; intros prev x Hl Hx; simpl.
  - simpl in Hx; tauto.
  - destruct Hl as [Hy Hl]; split; [exact Hy|].
    apply IH; [exact Hl|]; rewrite <- (last_cons l y prev); exact Hx.
Qed.

Lemma clusters_from_chained (rest : list Entity) :
  forall org taken end_idx c,
    chained org taken -> end_idx = end_ (last taken org) ->
    In c (clusters_from org taken end_idx rest) ->
    chained (first_mention c) (absorbed c).
Proof.
  induction rest as [|next rest IH]; intros org taken end_idx c Hch He; simpl.
  - intros [<- | []]; exact Hch.
  - destruct (Z.leb_spec (start next - end_idx) 1) as [Hgap | Hgap].
    + apply IH; [|rewrite last_last; reflexivity].
      apply chained_snoc; [exact Hch | rewrite <- He; exact Hgap].
    + intros [<- | Hin]; [exact Hch|].
      revert Hin; apply IH; [exact I | reflexivity].
Qed.

Lemma clusters_from_head (rest : list Entity) :
  forall org taken end_idx,
    exists c cs, clusters_from org taken end_idx rest = c :: cs /\
                 first_mention c = org.
Proof.
  induction rest as [|next rest IH]; intros org taken end_idx; simpl.
  - eauto.
  - destruct (start next - end_idx <=? 1); [apply IH | eauto].
Qed.

Lemma clusters_from_separated (rest : list Entity) :
  forall org taken end_idx,
    separated (clusters_from org taken end_idx rest).
Proof.
  induction rest as [|next rest IH]; intros org taken end_idx; simpl.
  - tauto.
  - destruct (Z.leb_spec (start next - end_idx) 1) as [Hgap | Hgap].
    + apply IH.
    + specialize (IH next [] (end_ next)).
      destruct (clusters_from_head rest next [] (end_ next))
        as (c & cs & E & Hc).
      rewrite E in *; simpl; rewrite Hc; split; [exact Hgap | exact IH].
Qed.

Lemma clusters_chained (organizations : list Entity) (c : Cluster) :
  In c (clusters organizations) -> chained (first_mention c) (absorbed c).
Proof.
  destruct organizations as [|org rest]; [intros []|].
  apply clusters_from_chained; [exact I | reflexivity].
Qed.

Lemma clusters_separated (organizations : list Entity) :
  separated (clusters organizations).
Proof.
  destruct organizations as [|org rest]; [exact I|].
  apply clusters_from_separated.
Qed.

(** [predict], with its loops unfolded. *)
Lemma predict_clusters capitalize ner_pipeline sentiment_pipeline text log :
  predict capitalize ner_pipeline sentiment_pipeline text log =
  let cs := clusters (organizations_of text (ner_pipeline (capitalize text))) in
  let context_at c := context_of text (cluster_end c) in
  (mkOutput
     (map (fun c => word (first_mention c)) cs)
     (map (fun c => mkResult (word (first_mention c))
                      (sentiment_text_of (sentiment_pipeline (context_at c))))
          cs),
   log ++ NerCall (capitalize text)
       :: map (fun c => SentimentCall (context_at c)) cs).
Proof.
  cbv beta iota zeta delta [predict bind call_ner ret].
  fold (organizations_of text (ner_pipeline (capitalize text))).
  rewrite cluster_loop_clusters; cbn [fst snd app].
  rewrite <- app_assoc; reflexivity.
Qed.

(** ** The merge and injection loops *)

Lemma last_entity_snoc (l : list Entity) (e : Entity) :
  last_entity (l ++ [e]) = Some e.
Proof. unfold last_entity; rewrite rev_unit; reflexivity. Qed.

Lemma snoc_cases (l : list Entity) :
  l = [] \/ exists l' e, l = l' ++ [e].
Proof. destruct l using rev_ind; [left | right]; eauto. Qed.

Lemma merge_step_extend text combined prev tag :
  startswith (word tag) continuation_marker = true ->
  merge_step text (combined ++ [prev]) tag =
  combined ++ [mkEntity (entity_group prev)
                 (slice text (start prev) (end_ tag)) (start prev) (end_ tag)].
Proof.
  intros H; unfold merge_step.
  rewrite H, last_entity_snoc, removelast_last; reflexivity.
Qed.

Lemma merge_step_append text combined tag :
  startswith (word tag) continuation_marker = false \/ combined = [] ->
  merge_step text combined tag = combined ++ [tag].
Proof.
  unfold merge_step; intros [-> | ->]; [reflexivity|].
  destruct (startswith (word tag) continuation_marker); reflexivity.
Qed.

(** A property of entities that re-slicing keeps holds of the merged list as
    soon as it holds of the pieces. *)
Lemma merge_step_Forall (P : Entity -> Prop) text combined tag :
  (forall prev, P prev ->
     P (mkEntity (entity_group prev) (slice text (start prev) (end_ tag))
          (start prev) (end_ tag))) ->
  Forall P combined -> P tag -> Forall P (merge_step text combined tag).
Proof.
  intros Hclosed Hall Htag.
  destruct (startswith (word tag) continuation_marker) eqn:Hm.
  - destruct (snoc_cases combined) as [-> | (l & prev & ->)].
    + rewrite merge_step_append by auto.
      repeat constructor; assumption.
    + rewrite merge_step_extend by assumption.
      apply Forall_app in Hall; destruct Hall as [Hl Hprev].
      apply Forall_app; split; [assumption|].
      constructor; [|constructor].
      apply Hclosed; inversion Hprev; assumption.
  - rewrite merge_step_append by auto.
    apply Forall_app; split; [assumption | repeat constructor; assumption].
Qed.

Lemma merge_subwords_Forall (P : Entity -> Prop) text ner_results :
  (forall prev tag, P prev ->
     P (mkEntity (entity_group prev) (slice text (start prev) (end_ tag))
          (start prev) (end_ tag))) ->
  Forall P ner_results -> Forall P (merge_subwords text ner_results).
Proof.
  intros Hclosed; unfold merge_subwords.
  assert (G : forall tags combined,
             Forall P combined -> Forall P tags ->
             Forall P (fold_left (merge_step text) tags combined)).
  { induction tags as [|tag tags IH]; intros combined Hc Ht; simpl;
      [assumption|].
    inversion Ht; subst.
    apply IH; [apply merge_step_Forall|]; auto. }
  intros H; apply G; [constructor | exact H].
Qed.

Lemma inject_mentions_app text combined :
  inject_mentions text combined =
  combined ++ map (mention text) (filter is_mention (split text)).
Proof.
  unfold inject_mentions; generalize (split text) as tokens.
  intros tokens; revert combined.
  induction tokens as [|token tokens IH]; intros combined; simpl.
  - symmetry; apply app_nil_r.
  - rewrite IH; unfold inject_step, is_mention.
    destruct (startswith token at_sign); simpl;
      [rewrite <- app_assoc|]; reflexivity.
Qed.

Lemma mention_span text token :
  In token (split text) ->
  occurs_at text token (find text token) /\
  forall j, 0 <= j < find text token -> ~ occurs_at text token j.
Proof.
  intros H; apply split_substring in H; destruct H as (p & q & ->).
  apply find_substring.
Qed.

(** * The claims *)

(** ** Output alignment *)

Lemma attribute_aligned sentiment_pipeline text org end_idx acc log :
  aligned acc ->
  aligned (fst (attribute sentiment_pipeline text org end_idx acc log)).
Proof.
  unfold aligned; intros H.
  cbv beta iota zeta delta [attribute bind call_sentiment ret]; cbn [fst snd].
  rewrite map_app, H; reflexivity.
Qed.

Lemma cluster_from_aligned sentiment_pipeline text rest :
  forall org end_idx acc log,
    aligned acc ->
    aligned (fst (cluster_from sentiment_pipeline text org end_idx rest acc log)).
Proof.
  induction rest as [|next rest IH]; intros org end_idx acc log H.
  - apply attribute_aligned; assumption.
  - cbn [cluster_from]; destruct (start next - end_idx <=? 1).
    + apply IH; assumption.
    + unfold bind.
      pose proof (attribute_aligned sentiment_pipeline text org end_idx acc
                    log H) as Hacc.
      destruct (attribute sentiment_pipeline text org end_idx acc log)
        as [acc' log'].
      apply IH; exact Hacc.
Qed.

(** C1. For every text and every pair of pipelines, the two lists that
    [predict] returns have the same length, and the k-th element of
    [entity_list] is the [entity] of the k-th element of [results], for
    every index k. *)
Theorem C1_output_alignment :
  forall capitalize ner_pipeline sentiment_pipeline text log,
    let out := fst (predict capitalize ner_pipeline sentiment_pipeline text log) in
    length (entity_list out) = length (results out) /\
    forall k, nth_error (entity_list out) k =
              option_map entity (nth_error (results out) k).
Proof.
  intros capitalize ner_pipeline sentiment_pipeline text log out.
  assert (A : entity_list out = map entity (results out)).
  { subst out; cbv beta iota zeta delta [predict bind call_ner ret].
    set (organizations := sorted_by_start _).
    set (log' := log ++ _).
    assert (H : aligned ([], [])) by reflexivity.
    destruct organizations as [|org rest]; [reflexivity|].
    apply (cluster_from_aligned sentiment_pipeline text rest org (end_ org)
             _ log') in H.
    unfold cluster_loop.
    destruct (cluster_from sentiment_pipeline text org (end_ org) rest
                ([], []) log') as [acc l]; exact H. }
  rewrite A; split.
  - apply length_map.
  - intros k; apply nth_error_map.
Qed.

(** ** Sub-word merge *)

(** C2. A piece whose word starts with the marker, met when an entity has
    been accumulated, extends that entity: its word becomes the slice of the
    original text from the recorded start to the end of the piece, and its
    end becomes the end of the piece.  For the pieces "Turk" [0,4) and
    "##cell" [4,8) over "Turkcell enjoyed..." the merged word is "Turkcell",
    read from the text whatever the capitalised copy is. *)
Theorem C2_subword_merge :
  forall text combined prev tag,
    startswith (word tag) continuation_marker = true ->
    merge_step text (combined ++ [prev]) tag =
      combined ++ [mkEntity (entity_group prev)
                     (slice text (start prev) (end_ tag))
                     (start prev) (end_ tag)]
    /\ merge_subwords (lit "Turkcell enjoyed...")
         [mkEntity ORG (lit "Turk") 0 4; mkEntity ORG (lit "##cell") 4 8] =
       [mkEntity ORG (lit "Turkcell") 0 8]
    /\ forall capitalize sentiment_pipeline,
         entity_list (value (predict capitalize turk_cell sentiment_pipeline
                               (lit "Turkcell enjoyed..."))) =
         [lit "Turkcell"].
Proof.
  intros text combined prev tag H; split; [|split].
  - apply merge_step_extend; exact H.
  - reflexivity.
  - intros capitalize sentiment_pipeline; unfold value.
    rewrite predict_clusters; reflexivity.
Qed.

Lemma C2_subword_merge_witness :
  merge_step (lit "turkcell enjoyed") ([] ++ [mkEntity ORG (lit "Turk") 0 4])
    (mkEntity ORG (lit "##cell") 4 8) =
  [mkEntity ORG (lit "turkcell") 0 8].
Proof.
  refine (proj1 (C2_subword_merge (lit "turkcell enjoyed") []
                   (mkEntity ORG (lit "Turk") 0 4)
                   (mkEntity ORG (lit "##cell") 4 8) _)).
  reflexivity.
Defined.

(** ** Mention injection *)

(** C3. Each token of the original text that starts with [@] is appended
    as an entity of group ORG whose word is the token and whose span starts
    at the first occurrence of the token in the text, so that equal tokens
    get equal spans.  With a tagger that finds nothing, "Hello @Acme world"
    gives the entity list ["@Acme"]. *)
Theorem C3_mention_injection :
  forall text combined,
    inject_mentions text combined =
      combined ++ map (mention text) (filter is_mention (split text))
    /\ (forall token,
          In token (split text) ->
          let s := find text token in
          mention text token = mkEntity ORG token s (s + len token) /\
          occurs_at text token s /\
          forall j, 0 <= j < s -> ~ occurs_at text token j)
    /\ inject_mentions (lit "@a x @a") [] =
         [mkEntity ORG (lit "@a") 0 2; mkEntity ORG (lit "@a") 0 2]
    /\ forall capitalize sentiment_pipeline,
         entity_list (value (predict capitalize no_entities sentiment_pipeline
                               (lit "Hello @Acme world"))) =
         [lit "@Acme"].
Proof.
  intros text combined; split; [|split; [|split]].
  - apply inject_mentions_app.
  - intros token Hin s; split; [reflexivity|].
    apply mention_span; exact Hin.
  - reflexivity.
  - intros capitalize sentiment_pipeline; unfold value.
    rewrite predict_clusters; reflexivity.
Qed.

Lemma C3_mention_injection_witness :
  let text := lit "Hello @Acme world" in
  mention text (lit "@Acme") = mkEntity ORG (lit "@Acme") 6 11 /\
  occurs_at text (lit "@Acme") 6 /\
  ~ occurs_at text (lit "@Acme") 3.
Proof.
  intros text.
  destruct (proj1 (proj2 (C3_mention_injection text [])) (lit "@Acme"))
    as (H1 & H2 & H3).
  - right; left; reflexivity.
  - split; [exact H1 | split; [exact H2|]].
    apply H3; split; [lia | reflexivity].
Defined.

(** ** Adjacency clustering *)

(** C4. In the clustering loop a next mention whose start is at most one
    past the current end is absorbed, and the current end becomes its end; a
    next mention whose start is two past the current end closes the cluster
    and opens one of its own.  Two mentions one apart give one result and
    one sentiment call, after the second mention; two mentions two apart
    give two results, each with its own call.  Over a whole list the loop
    reports the clusters that cut it into runs of mentions chained by gaps
    of at most one and separated by gaps of more than one. *)
Theorem C4_adjacency_threshold :
  forall sentiment_pipeline text,
    let attribute := attribute sentiment_pipeline text in
    let cluster_from := cluster_from sentiment_pipeline text in
    let cluster_loop := cluster_loop sentiment_pipeline text in
    let result_at org end_idx :=
      mkResult (word org)
        (sentiment_text_of (sentiment_pipeline (context_of text end_idx))) in
    (forall org end_idx next rest acc,
        start next - end_idx <= 1 ->
        cluster_from org end_idx (next :: rest) acc =
        cluster_from org (end_ next) rest acc)
    /\ (forall org end_idx next rest acc,
        start next - end_idx = 2 ->
        cluster_from org end_idx (next :: rest) acc =
        (acc' <- attribute org end_idx acc ;;
         cluster_from next (end_ next) rest acc'))
    /\ (forall a b,
        start b - end_ a <= 1 ->
        cluster_loop [a; b] ([], []) [] =
        (([word a], [result_at a (end_ b)]),
         [SentimentCall (context_of text (end_ b))]))
    /\ (forall a b,
        start b - end_ a = 2 ->
        cluster_loop [a; b] ([], []) [] =
        (([word a; word b], [result_at a (end_ a); result_at b (end_ b)]),
         [SentimentCall (context_of text (end_ a));
          SentimentCall (context_of text (end_ b))]))
    /\ (forall organizations acc log,
        let cs := clusters organizations in
        cluster_loop organizations acc log =
          ((fst acc ++ map cluster_name cs,
            snd acc ++ map (cluster_result sentiment_pipeline text) cs),
           log ++ map (cluster_call text) cs)
        /\ concat (map members cs) = organizations
        /\ (forall c, In c cs -> chained (first_mention c) (absorbed c))
        /\ separated cs).
Proof.
  intros sentiment_pipeline text; cbv zeta.
  split; [|split; [|split; [|split]]].
  - intros org end_idx next rest acc H; cbn [cluster_from].
    destruct (Z.leb_spec (start next - end_idx) 1); [reflexivity | lia].
  - intros org end_idx next rest acc H; cbn [cluster_from].
    destruct (Z.leb_spec (start next - end_idx) 1); [lia | reflexivity].
  - intros a b H; cbn [cluster_loop cluster_from].
    destruct (Z.leb_spec (start b - end_ a) 1); [reflexivity | lia].
  - intros a b H; cbn [cluster_loop cluster_from].
    destruct (Z.leb_spec (start b - end_ a) 1); [lia | reflexivity].
  - intros organizations acc log; split; [|split; [|split]].
    + apply cluster_loop_clusters.
    + apply clusters_members.
    + apply clusters_chained.
    + apply clusters_separated.
Qed.

Lemma C4_adjacency_threshold_witness :
  let text := lit "Turk Cell, Acme is slow" in
  let turk := mkEntity ORG (lit "Turk") 0 4 in
  let cell := mkEntity ORG (lit "Cell") 5 9 in
  let acme := mkEntity ORG (lit "Acme") 11 15 in
  let run := cluster_loop (always Negative) text in
  (value (run [turk; cell] ([], [])) =
     ([lit "Turk"], [mkResult (lit "Turk") olumsuz]) /\
   calls (run [turk; cell] ([], [])) = [SentimentCall (lit ", Acme is ")])
  /\
  (value (run [cell; acme] ([], [])) =
     ([lit "Cell"; lit "Acme"],
      [mkResult (lit "Cell") olumsuz; mkResult (lit "Acme") olumsuz]) /\
   calls (run [cell; acme] ([], [])) =
     [SentimentCall (lit ", Acme is "); SentimentCall (lit " is slow")])
  /\
  (cluster_from (always Negative) text turk 4 [cell; acme] ([], []) =
   cluster_from (always Negative) text turk 9 [acme] ([], []) /\
   cluster_from (always Negative) text turk 9 [acme] ([], []) =
   (acc <- attribute (always Negative) text turk 9 ([], []) ;;
    cluster_from (always Negative) text acme 15 [] acc) /\
   chained turk [cell]).
Proof.
  intros text turk cell acme run.
  destruct (C4_adjacency_threshold (always Negative) text)
    as (Habsorb & Hclose & Hnear & Hfar & Hall).
  unfold value, calls, run; split; [|split].
  - rewrite (Hnear turk cell) by (simpl; lia); split; reflexivity.
  - rewrite (Hfar cell acme) by reflexivity; split; reflexivity.
  - split; [|split].
    + apply (Habsorb turk 4 cell [acme]); simpl; lia.
    + apply (Hclose turk 9 acme []); reflexivity.
    + apply (proj1 (proj2 (proj2 (Hall [turk; cell; acme] ([], []) [])))
               (mkCluster turk [cell] 9)).
      left; reflexivity.
Defined.

(** ** Context window *)

Lemma context_of_right text end_idx :
  0 <= end_idx ->
  context_of text end_idx =
  firstn (Z.to_nat context_window_size) (skipn (Z.to_nat end_idx) text).
Proof.
  intros H0; unfold context_of, context_window_size.
  destruct (Z.le_gt_cases end_idx (len text)) as [Hle | Hgt].
  - rewrite slice_inside by lia.
    set (l := skipn (Z.to_nat end_idx) text).
    assert (Hl : length l = (length text - Z.to_nat end_idx)%nat)
      by apply length_skipn.
    unfold len in *.
    destruct (Z.le_gt_cases (end_idx + 10) (Z.of_nat (length text))).
    + f_equal; lia.
    + rewrite Z.min_l by lia.
      replace (Z.to_nat (Z.of_nat (length text) - end_idx)) with (length l)
        by lia.
      rewrite firstn_all, firstn_all2 by lia; reflexivity.
  - unfold slice, clamp.
    pose proof (len_nonneg text).
    destruct (Z.ltb_spec end_idx 0); [lia|].
    rewrite (Z.min_l (len text)) by lia.
    destruct (Z.ltb_spec (len text) 0); [lia|].
    rewrite Z.min_id, Z.min_r by lia.
    rewrite Z.sub_diag; simpl.
    rewrite skipn_all2 by (unfold len in *; lia).
    reflexivity.
Qed.

Lemma context_of_at_end text : context_of text (len text) = [].
Proof.
  rewrite context_of_right by apply len_nonneg.
  unfold len; rewrite Nat2Z.id, skipn_all; reflexivity.
Qed.

(** C5. The context given to the sentiment pipeline for a cluster is the
    slice of the original text from the end of the cluster to that end plus
    ten, cut at the length of the text: for an end that is not negative, the
    ten characters that follow it, or as many as remain, and nothing before
    it.  A cluster that ends where the text ends has the empty context; the
    pipeline is called on it all the same and the cluster gets its result. *)
Theorem C5_context_window :
  forall capitalize ner_pipeline sentiment_pipeline text,
    let run := predict capitalize ner_pipeline sentiment_pipeline text in
    let cs := clusters (organizations_of text (ner_pipeline (capitalize text))) in
    let context_at c :=
      slice text (cluster_end c) (Z.min (len text) (cluster_end c + 10)) in
    let result_of c :=
      mkResult (word (first_mention c))
               (sentiment_text_of (sentiment_pipeline (context_at c))) in
    calls run = NerCall (capitalize text)
                  :: map (fun c => SentimentCall (context_at c)) cs
    /\ results (value run) = map result_of cs
    /\ (forall c, 0 <= cluster_end c ->
          context_at c = firstn 10 (skipn (Z.to_nat (cluster_end c)) text))
    /\ (forall c, In c cs -> cluster_end c = len text ->
          context_at c = [] /\
          In (SentimentCall []) (calls run) /\
          In (mkResult (word (first_mention c))
                (sentiment_text_of (sentiment_pipeline [])))
             (results (value run))).
Proof.
  intros capitalize ner_pipeline sentiment_pipeline text run cs
    context_at result_of.
  assert (Hrun : run [] =
            (mkOutput (map (fun c => word (first_mention c)) cs)
                      (map result_of cs),
             NerCall (capitalize text)
               :: map (fun c => SentimentCall (context_at c)) cs))
    by apply predict_clusters.
  assert (Hcalls : calls run = NerCall (capitalize text)
                     :: map (fun c => SentimentCall (context_at c)) cs)
    by (unfold calls; rewrite Hrun; reflexivity).
  assert (Hres : results (value run) = map result_of cs)
    by (unfold value; rewrite Hrun; reflexivity).
  split; [exact Hcalls | split; [exact Hres | split]].
  - intros c H; apply (context_of_right text (cluster_end c) H).
  - intros c Hin Hend.
    assert (Hctx : context_at c = []).
    { unfold context_at; rewrite Hend; apply context_of_at_end. }
    split; [exact Hctx | split].
    + rewrite Hcalls; right; rewrite <- Hctx.
      apply (in_map (fun c => SentimentCall (context_at c))); exact Hin.
    + rewrite Hres.
      replace (mkResult _ _) with (result_of c)
        by (unfold result_of; rewrite Hctx; reflexivity).
      apply in_map; exact Hin.
Qed.

Lemma C5_context_window_witness :
  let text := lit "I like @Acme" in
  let run := predict ascii_capitalize no_entities (always Positive) text in
  calls run = [NerCall (lit "I like @acme"); SentimentCall []] /\
  In (mkResult (lit "@Acme") olumlu) (results (value run)) /\
  slice text 2 (Z.min (len text) (2 + 10)) = lit "like @Acme".
Proof.
  intros text run.
  destruct (C5_context_window ascii_capitalize no_entities (always Positive)
              text) as (Hcalls & _ & Hright & Hend).
  split; [exact Hcalls | split].
  - refine (proj2 (proj2 (Hend (mkCluster (mention text (lit "@Acme")) [] 12)
                            _ _))).
    + left; reflexivity.
    + reflexivity.
  - refine (Hright (mkCluster (mention text (lit "@Acme")) [] 2) _).
    simpl; lia.
Defined.

(** ** Label mapping *)

(** C6. The label of the sentiment pipeline is mapped by a total function:
    Negative to olumsuz, Neutral to nötr, Positive to olumlu and any other
    label to nötr, so every sentiment [predict] emits is one of the three. *)
Theorem C6_label_mapping :
  sentiment_text_of Negative = olumsuz
  /\ sentiment_text_of Neutral = notr
  /\ sentiment_text_of Positive = olumlu
  /\ (forall label,
        label <> Negative -> label <> Neutral -> label <> Positive ->
        sentiment_text_of label = notr)
  /\ (forall label, In (sentiment_text_of label) sentiment_texts)
  /\ NoDup sentiment_texts
  /\ forall capitalize ner_pipeline sentiment_pipeline text r,
       In r (results (value (predict capitalize ner_pipeline
                               sentiment_pipeline text))) ->
       In (sentiment r) sentiment_texts.
Proof.
  assert (Hin : forall label, In (sentiment_text_of label) sentiment_texts).
  { intros label; unfold sentiment_text_of, sentiment_texts.
    destruct (str_eqb label Negative); [simpl; tauto|].
    destruct (str_eqb label Neutral); [simpl; tauto|].
    destruct (str_eqb label Positive); simpl; tauto. }
  repeat split; try reflexivity.
  - intros label H1 H2 H3; unfold sentiment_text_of.
    apply str_eqb_neq in H1, H2, H3; rewrite H1, H2, H3; reflexivity.
  - exact Hin.
  - unfold sentiment_texts, olumlu, olumsuz, notr.
    repeat constructor; simpl; intuition discriminate.
  - intros capitalize ner_pipeline sentiment_pipeline text r.
    unfold value; rewrite predict_clusters; cbn [fst results].
    intros H; apply in_map_iff in H; destruct H as (c & <- & _).
    apply Hin.
Qed.

Lemma C6_label_mapping_witness :
  sentiment_text_of (lit "LABEL_2") = notr /\
  In (sentiment (mkResult (lit "@Acme") olumlu)) sentiment_texts.
Proof.
  destruct C6_label_mapping as (_ & _ & _ & Hother & _ & _ & Hout).
  split.
  - apply Hother; discriminate.
  - apply (Hout ascii_capitalize no_entities (always Positive)
             (lit "I like @Acme")).
    left; reflexivity.
Defined.

(** ** Representative text *)

(** C7. The name reported for a cluster, in [entity_list] and in its
    result alike, is the word of the first mention of the cluster, the one
    at the index where the cluster starts; it is neither a slice of the
    span of the cluster nor the word of an absorbed mention, while the
    context starts at the end of the last mention absorbed. *)
Theorem C7_representative_text :
  forall capitalize ner_pipeline sentiment_pipeline text,
    let organizations :=
      organizations_of text (ner_pipeline (capitalize text)) in
    let cs := clusters organizations in
    let out := value (predict capitalize ner_pipeline sentiment_pipeline text) in
    entity_list out = map (fun c => word (first_mention c)) cs
    /\ map entity (results out) = map (fun c => word (first_mention c)) cs
    /\ concat (map members cs) = organizations
    /\ (forall k c,
          nth_error cs k = Some c ->
          nth_error organizations
            (length (concat (map members (firstn k cs)))) =
          Some (first_mention c))
    /\ (forall c, In c cs ->
          cluster_end c = end_ (last (absorbed c) (first_mention c)))
    /\ forall capitalize sentiment_pipeline,
         let run := predict capitalize turk_and_cell sentiment_pipeline
                      (lit "Turk Cell is slow") in
         entity_list (value run) = [lit "Turk"] /\
         calls run = [NerCall (capitalize (lit "Turk Cell is slow"));
                      SentimentCall (lit " is slow")].
Proof.
  intros capitalize ner_pipeline sentiment_pipeline text organizations cs out.
  assert (Hout : out =
            mkOutput (map (fun c => word (first_mention c)) cs)
              (map (fun c => mkResult (word (first_mention c))
                       (sentiment_text_of
                          (sentiment_pipeline
                             (context_of text (cluster_end c))))) cs)).
  { unfold out, value; rewrite predict_clusters; reflexivity. }
  assert (Hmem : concat (map members cs) = organizations)
    by apply clusters_members.
  split; [|split; [|split; [|split; [|split]]]].
  - rewrite Hout; reflexivity.
  - rewrite Hout; cbn [results]; rewrite map_map; reflexivity.
  - exact Hmem.
  - intros k c Hk.
    apply nth_error_split in Hk; destruct Hk as (l1 & l2 & Hcs & Hlen).
    rewrite <- Hmem, Hcs, <- Hlen.
    rewrite firstn_app, firstn_all, Nat.sub_diag; simpl firstn.
    rewrite app_nil_r, map_app, concat_app; simpl.
    rewrite nth_error_app2, Nat.sub_diag by lia; reflexivity.
  - intros c; apply clusters_end.
  - intros capitalize' sentiment_pipeline' run; unfold run, value, calls.
    rewrite predict_clusters; split; reflexivity.
Qed.

Lemma C7_representative_text_witness :
  let text := lit "Turk Cell is slow" in
  let turk := mkEntity ORG (lit "Turk") 0 4 in
  let cell := mkEntity ORG (lit "Cell") 5 9 in
  let c := mkCluster turk [cell] 9 in
  nth_error (organizations_of text (turk_and_cell (ascii_capitalize text))) 0 =
    Some (first_mention c) /\
  cluster_end c = end_ (last (absorbed c) (first_mention c)).
Proof.
  intros text turk cell c.
  destruct (C7_representative_text ascii_capitalize turk_and_cell
              (always Neutral) text) as (_ & _ & _ & Hfirst & Hend & _).
  split.
  - apply (Hfirst 0%nat c); reflexivity.
  - apply Hend; left; reflexivity.
Defined.

(** ** The capitalised copy *)

Lemma slice_incl (s : str) (i j c : Z) : In c (slice s i j) -> In c s.
Proof.
  unfold slice; intros H.
  set (lo := Z.to_nat (clamp (len s) i)) in *.
  set (n := Z.to_nat (clamp (len s) j - clamp (len s) i)) in *.
  rewrite <- (firstn_skipn lo s); apply in_or_app; right.
  rewrite <- (firstn_skipn n (skipn lo s)); apply in_or_app; left; exact H.
Qed.

Lemma mention_drawn text token :
  In token (split text) -> drawn_from text (word (mention text token)).
Proof.
  intros H; destruct (mention_span text token H) as ((_ & _ & E) & _).
  exists (find text token), (find text token + len token).
  symmetry; exact E.
Qed.

(** Where the entities of the organisation list come from: a tagger entity
    taken as it is, or a word sliced from the original text. *)
Lemma organizations_origin text ner_results e :
  In e (organizations_of text ner_results) ->
  In e ner_results \/ drawn_from text (word e).
Proof.
  unfold organizations_of; intros H.
  apply (proj1 (sorted_by_start_In _ _)) in H.
  apply filter_In in H; destruct H as [H _].
  rewrite inject_mentions_app in H; apply in_app_or in H.
  destruct H as [H | H].
  - revert e H; apply Forall_forall.
    apply merge_subwords_Forall.
    + intros prev tag _; right; simpl; eexists _, _; reflexivity.
    + apply Forall_forall; intros t Ht; left; exact Ht.
  - apply in_map_iff in H; destruct H as (token & <- & H).
    apply filter_In in H; right; apply mention_drawn; tauto.
Qed.

Lemma clusters_first_In organizations c :
  In c (clusters organizations) -> In (first_mention c) organizations.
Proof.
  intros H; rewrite <- (clusters_members organizations).
  apply in_concat; exists (members c); split.
  - apply in_map; exact H.
  - left; reflexivity.
Qed.

Lemma organizations_of_In text ner_results e :
  In e (organizations_of text ner_results) <->
  is_org e = true /\
  (In e (merge_subwords text ner_results) \/
   exists token, In token (split text) /\ is_mention token = true /\
                 e = mention text token).
Proof.
  unfold organizations_of.
  rewrite sorted_by_start_In, filter_In, inject_mentions_app, in_app_iff.
  rewrite in_map_iff.
  split.
  - intros [H Horg]; split; [exact Horg|].
    destruct H as [H | (token & <- & H)]; [left; exact H | right].
    apply filter_In in H; exists token; tauto.
  - intros [Horg H]; split; [|exact Horg].
    destruct H as [H | (token & Hin & Hm & ->)]; [left; exact H | right].
    exists token; split; [reflexivity | apply filter_In; tauto].
Qed.

Lemma py_capitalize_ascii (text : str) :
  Forall (fun c => c <> 931) text ->
  py_capitalize ascii_tables text = ascii_capitalize text.
Proof.
  assert (G : forall rest before,
             Forall (fun c => c <> 931) rest ->
             lower_rest ascii_tables before rest = map ascii_lower rest).
  { induction rest as [|c rest IH]; intros before H; [reflexivity|].
    inversion H as [|? ? Hc Hrest]; subst; cbn [lower_rest map].
    destruct (Z.eqb_spec c 931); [contradiction|].
    rewrite (IH _ Hrest); reflexivity. }
  intros H; destruct text as [|c rest]; [reflexivity|].
  inversion H; subst; simpl; rewrite G by assumption; reflexivity.
Qed.

(** ** Runs and the merge loop *)

Lemma entity_of_run_snoc text head conts t :
  entity_of_run text (head, conts ++ [t]) = merged text head t.
Proof.
  unfold entity_of_run; cbn [fst snd].
  destruct conts as [|c cs]; [reflexivity|].
  cbn [app]; rewrite last_last; reflexivity.
Qed.

Lemma entity_of_run_head text head conts :
  entity_group (entity_of_run text (head, conts)) = entity_group head /\
  start (entity_of_run text (head, conts)) = start head.
Proof. destruct conts; split; reflexivity. Qed.

(** The merge loop leaves one entity per run. *)
Lemma merge_fold_runs text tags :
  forall combined head conts,
    fold_left (merge_step text) tags
      (combined ++ [entity_of_run text (head, conts)]) =
    combined ++ map (entity_of_run text) (runs_from head conts tags).
Proof.
  induction tags as [|t tags IH]; intros combined head conts; [reflexivity|].
  cbn [fold_left runs_from].
  destruct (is_continuation t) eqn:Ht.
  - rewrite merge_step_extend by exact Ht.
    destruct (entity_of_run_head text head conts) as [-> ->].
    change (mkEntity (entity_group head)
              (slice text (start head) (end_ t)) (start head) (end_ t))
      with (merged text head t).
    rewrite <- (entity_of_run_snoc text head conts t); apply IH.
  - rewrite merge_step_append by (left; exact Ht).
    pose proof (IH (combined ++ [entity_of_run text (head, conts)]) t [])
      as IH'.
    change (entity_of_run text (t, [])) with t in IH'.
    rewrite IH', <- app_assoc; reflexivity.
Qed.

Lemma merge_subwords_runs text tags :
  merge_subwords text tags = map (entity_of_run text) (runs tags).
Proof.
  destruct tags as [|t tags]; [reflexivity|].
  unfold merge_subwords, runs; cbn [fold_left].
  rewrite (merge_step_append text [] t) by (right; reflexivity).
  apply (merge_fold_runs text tags [] t []).
Qed.

Lemma runs_from_pieces (tags : list Entity) :
  forall head conts,
    concat (map (fun r => fst r :: snd r) (runs_from head conts tags)) =
    head :: conts ++ tags.
Proof.
  induction tags as [|t tags IH]; intros head conts; cbn [runs_from].
  - simpl; rewrite !app_nil_r; reflexivity.
  - destruct (is_continuation t).
    + rewrite IH, <- app_assoc; reflexivity.
    + cbn [map concat fst snd]; rewrite IH; reflexivity.
Qed.

Lemma runs_pieces (tags : list Entity) :
  concat (map (fun r => fst r :: snd r) (runs tags)) = tags.
Proof.
  destruct tags as [|t tags]; [reflexivity|].
  unfold runs; rewrite runs_from_pieces; reflexivity.
Qed.

Lemma runs_head_In (tags : list Entity) (r : Entity * list Entity) :
  In r (runs tags) -> In (fst r) tags.
Proof.
  intros H; rewrite <- (runs_pieces tags).
  apply in_concat; exists (fst r :: snd r); split; [|left; reflexivity].
  apply (in_map (fun r => fst r :: snd r)); exact H.
Qed.

Lemma organizations_origin_run text tags e :
  In e (organizations_of text tags) -> origin text tags e.
Proof.
  intros H; apply organizations_of_In in H; destruct H as [_ H].
  destruct H as [H | (token & Hin & Hm & ->)].
  - rewrite merge_subwords_runs in H.
    apply in_map_iff in H; destruct H as ([head conts] & <- & Hr).
    destruct conts as [|c cs].
    + left; split; [exact Hr | apply (runs_head_In tags _ Hr)].
    + right; left; exists head, c, cs; repeat split; exact Hr.
  - right; right; exists token.
    destruct (mention_span text token Hin) as ((_ & _ & E) & _).
    repeat split; assumption.
Qed.

(** C8, as the code has it.  The tagger is called once, on the capitalised
    copy of the text, which begins with the first character in upper case,
    and the copy is used for nothing else.  The contexts of the sentiment
    calls are slices of the original text.  The name of an entity merged
    from a piece and its continuations is the slice of the original text
    over the span of the run, and the name of a token that starts with [@]
    is the token, found in the original text.  A tagger entity that no
    continuation follows is reported as the tagger gave it, with the word
    the tagger read in the copy. *)
Theorem C8_capitalised_copy :
  forall tables ner_pipeline sentiment_pipeline text,
    let capitalize := py_capitalize tables in
    let run := predict capitalize ner_pipeline sentiment_pipeline text in
    let tags := ner_pipeline (capitalize text) in
    let organizations := organizations_of text tags in
    (exists contexts,
        calls run = NerCall (capitalize text) :: map SentimentCall contexts /\
        Forall (drawn_from text) contexts)
    /\ (forall c rest,
          text = c :: rest ->
          capitalize text = to_title_full tables c ++ lower_rest tables [c] rest)
    /\ (forall capitalize' ner_pipeline',
          ner_pipeline' (capitalize' text) = tags ->
          value (predict capitalize' ner_pipeline' sentiment_pipeline text) =
          value run)
    /\ merge_subwords text tags = map (entity_of_run text) (runs tags)
    /\ (forall r,
          In r (runs tags) -> entity_group (fst r) = ORG ->
          In (entity_of_run text r) organizations)
    /\ (forall name,
          In name (entity_list (value run)) \/
          In name (map entity (results (value run))) ->
          exists e,
            In e organizations /\ word e = name /\ origin text tags e)
    /\ forall capitalize' sentiment_pipeline',
         entity_list (value (predict capitalize' turk_cell sentiment_pipeline'
                               (lit "turkcell enjoyed"))) =
         [lit "turkcell"].
Proof.
  intros tables ner_pipeline sentiment_pipeline text capitalize run tags
    organizations.
  set (cs := clusters organizations).
  split; [|split; [|split; [|split; [|split; [|split]]]]].
  - exists (map (fun c => context_of text (cluster_end c)) cs); split.
    + unfold run, calls; rewrite predict_clusters, map_map; reflexivity.
    + apply Forall_forall; intros ctx H.
      apply in_map_iff in H; destruct H as (c & <- & _).
      eexists _, _; reflexivity.
  - intros c rest ->; reflexivity.
  - intros capitalize' ner_pipeline' H; unfold run, value.
    rewrite !predict_clusters, H; reflexivity.
  - apply merge_subwords_runs.
  - intros r Hr Horg; apply organizations_of_In; split.
    + unfold is_org; destruct r as [head conts].
      destruct (entity_of_run_head text head conts) as [-> _].
      apply str_eqb_eq; exact Horg.
    + left; rewrite merge_subwords_runs; apply in_map; exact Hr.
  - intros name H.
    assert (He : In name (map (fun c => word (first_mention c)) cs)).
    { revert H; unfold run, value; rewrite predict_clusters.
      cbn [fst entity_list results]; rewrite map_map; tauto. }
    apply in_map_iff in He; destruct He as (c & <- & Hc).
    apply clusters_first_In in Hc.
    exists (first_mention c); split; [exact Hc | split; [reflexivity|]].
    apply organizations_origin_run; exact Hc.
  - intros capitalize' sentiment_pipeline'; unfold value.
    rewrite predict_clusters; reflexivity.
Qed.

Lemma C8_capitalised_copy_witness :
  let text := lit "acme rocks" in
  let capitalize := py_capitalize ascii_tables in
  let tags := first_four (capitalize text) in
  capitalize text = lit "Acme rocks"
  /\ value (predict (fun s => s) (fun _ => [mkEntity ORG (lit "Acme") 0 4])
             (always Positive) text) =
     value (predict capitalize first_four (always Positive) text)
  /\ In (mkEntity ORG (lit "Acme") 0 4) (organizations_of text tags)
  /\ exists e,
       In e (organizations_of text tags) /\ word e = lit "Acme" /\
       origin text tags e.
Proof.
  intros text capitalize tags.
  destruct (C8_capitalised_copy ascii_tables first_four (always Positive)
              text) as (_ & Hfirst & Hsame & _ & Hrun & Hfrom & _).
  split; [|split; [|split]].
  - apply (Hfirst 97 (lit "cme rocks")); reflexivity.
  - apply (Hsame (fun s => s) (fun _ => [mkEntity ORG (lit "Acme") 0 4])).
    reflexivity.
  - apply (Hrun (mkEntity ORG (lit "Acme") 0 4, []));
      [left; reflexivity | reflexivity].
  - apply Hfrom; left; left; reflexivity.
Defined.

(** C8, as the claim has it, fails: no output string would reflect the
    capitalised copy, yet on "acme rocks" a tagger that reports the first
    word it reads makes [predict] answer "Acme", which the text does not
    contain. *)
Lemma C8_counterexample :
  let text := lit "acme rocks" in
  let out := value (predict ascii_capitalize first_four (always Positive) text) in
  entity_list out = [lit "Acme"] /\
  ~ drawn_from text (lit "Acme") /\
  ~ outputs_from_original ascii_capitalize first_four (always Positive) text.
Proof.
  intros text out.
  assert (Hout : entity_list out = [lit "Acme"]) by reflexivity.
  assert (Hno : ~ drawn_from text (lit "Acme")).
  { intros (i & j & E).
    assert (H : In 65 (slice text i j)) by (rewrite <- E; left; reflexivity).
    apply slice_incl in H; simpl in H.
    repeat (destruct H as [H | H]; [discriminate|]); exact H. }
  split; [exact Hout | split; [exact Hno|]].
  intros H; apply Hno, H; fold out; rewrite Hout; left; reflexivity.
Qed.

(** ** Nothing to report *)

Lemma filter_none {A} (f : A -> bool) (l : list A) :
  (forall x, In x l -> f x = false) -> filter f l = [].
Proof.
  induction l as [|x l IH]; intros H; simpl; [reflexivity|].
  rewrite (H x) by (left; reflexivity).
  apply IH; intros y Hy; apply H; right; exact Hy.
Qed.

Lemma organizations_of_none text ner_results :
  (forall token, In token (split text) -> startswith token at_sign = false) ->
  (forall e, In e ner_results -> entity_group e <> ORG) ->
  organizations_of text ner_results = [].
Proof.
  intros Htok Hner; unfold organizations_of.
  rewrite inject_mentions_app, (filter_none is_mention) by exact Htok.
  simpl map; rewrite app_nil_r, filter_none; [reflexivity|].
  intros e He; apply str_eqb_neq; revert e He; apply Forall_forall.
  apply merge_subwords_Forall.
  - intros prev tag H; exact H.
  - apply Forall_forall; exact Hner.
Qed.

(** C9. When no token of the text starts with [@] and the tagger reports no
    entity of group ORG, [predict] returns two empty lists, without any call
    to the sentiment pipeline; so does the empty text, which has no token. *)
Theorem C9_nothing_found :
  forall capitalize ner_pipeline sentiment_pipeline text,
    (forall e, In e (ner_pipeline (capitalize text)) -> entity_group e <> ORG) ->
    let run := predict capitalize ner_pipeline sentiment_pipeline text in
    ((forall token, In token (split text) -> startswith token at_sign = false) ->
     value run = mkOutput [] [] /\ calls run = [NerCall (capitalize text)])
    /\ (text = [] -> value run = mkOutput [] []).
Proof.
  intros capitalize ner_pipeline sentiment_pipeline text Hner run.
  assert (G : (forall token, In token (split text) ->
                 startswith token at_sign = false) ->
              run [] = (mkOutput [] [], [NerCall (capitalize text)])).
  { intros Htok; unfold run; rewrite predict_clusters.
    rewrite (organizations_of_none text _ Htok Hner); reflexivity. }
  split.
  - intros Htok; unfold value, calls; rewrite (G Htok); split; reflexivity.
  - intros ->; unfold value; rewrite G; [reflexivity|].
    intros token [].
Qed.

Lemma C9_nothing_found_witness :
  let run := predict ascii_capitalize one_person (always Positive)
               (lit "Ali is here") in
  (value run = mkOutput [] [] /\ calls run = [NerCall (lit "Ali is here")]) /\
  value (predict ascii_capitalize one_person (always Positive) []) =
    mkOutput [] [].
Proof.
  intros run; split.
  - refine (proj1 (C9_nothing_found ascii_capitalize one_person
                     (always Positive) (lit "Ali is here") _) _).
    + intros e [<- | []]; discriminate.
    + intros token H; simpl in H.
      repeat (destruct H as [<- | H]; [reflexivity|]); destruct H.
  - refine (proj2 (C9_nothing_found ascii_capitalize one_person
                     (always Positive) [] _) _).
    + intros e [<- | []]; discriminate.
    + reflexivity.
Defined.

(** ** Injected spans *)

(** C10. The search for an [@] token cannot fail: a token of the split is
    a piece of the text, so [find] returns an index that is not negative, the
    span of the injected entity lies inside the text, and the slice of the
    text at that span is the word of the entity. *)
Theorem C10_mention_span :
  forall text token,
    In token (split text) ->
    let s := find text token in
    let m := mention text token in
    0 <= s
    /\ s + len token <= len text
    /\ slice text s (s + len token) = token
    /\ spans_text text m
    /\ forall combined e,
         In e (inject_mentions text combined) ->
         In e combined \/ (entity_group e = ORG /\ spans_text text e).
Proof.
  intros text token Hin s m.
  assert (Hspan : forall tok, In tok (split text) ->
                    spans_text text (mention text tok)).
  { intros tok Htok.
    destruct (mention_span text tok Htok) as ((H0 & Hle & E) & _).
    unfold spans_text; simpl.
    pose proof (len_nonneg tok); repeat split; try lia; exact E. }
  destruct (mention_span text token Hin) as ((H0 & Hle & E) & _).
  split; [exact H0 | split; [exact Hle | split; [exact E | split]]].
  - apply Hspan; exact Hin.
  - intros combined e He.
    rewrite inject_mentions_app in He; apply in_app_or in He.
    destruct He as [He | He]; [left; exact He | right].
    apply in_map_iff in He; destruct He as (tok & <- & Htok).
    apply filter_In in Htok; split; [reflexivity | apply Hspan; tauto].
Qed.

Lemma C10_mention_span_witness :
  let text := lit "x@a @a" in
  let m := mkEntity ORG (lit "@a") 1 3 in
  0 <= find text (lit "@a") /\
  slice text 1 3 = lit "@a" /\
  spans_text text m /\
  (In m [] \/ entity_group m = ORG /\ spans_text text m).
Proof.
  intros text m.
  destruct (C10_mention_span text (lit "@a")) as (H0 & _ & Hs & Hm & Hall).
  - right; left; reflexivity.
  - split; [exact H0 | split; [exact Hs | split; [exact Hm|]]].
    apply (Hall [] m); left; reflexivity.
Defined.

(** * Further properties of the endpoint *)

(** ** The merge loop *)

Lemma merge_subwords_snoc text tags tag :
  merge_subwords text (tags ++ [tag]) =
  merge_step text (merge_subwords text tags) tag.
Proof. unfold merge_subwords; rewrite fold_left_app; reflexivity. Qed.

Lemma merge_run text conts :
  forall combined head c,
    Forall (fun e => is_continuation e = true) (c :: conts) ->
    fold_left (merge_step text) (c :: conts) (combined ++ [head]) =
    combined ++ [merged text head (last conts c)].
Proof.
  induction conts as [|c' conts IH]; intros combined head c H;
    inversion H as [|? ? Hc Hrest]; subst.
  - simpl; apply merge_step_extend; exact Hc.
  - change (fold_left (merge_step text) (c :: c' :: conts) (combined ++ [head]))
      with (fold_left (merge_step text) (c' :: conts)
              (merge_step text (combined ++ [head]) c)).
    rewrite merge_step_extend by exact Hc.
    rewrite (IH combined _ c' Hrest), last_cons; reflexivity.
Qed.

(** X1. A piece followed by continuation pieces is merged into one entity:
    it keeps the group and the start of the first piece, takes the end of
    the last one and the slice of the original text between the two as its
    word.  The groups and the words of the continuation pieces are not
    read.  The run is merged on its own when its first piece is not a
    continuation, or when nothing comes before it. *)
Theorem X1_merge_run :
  forall text pre head c conts,
    is_continuation head = false \/ pre = [] ->
    Forall (fun e => is_continuation e = true) (c :: conts) ->
    merge_subwords text (pre ++ head :: c :: conts) =
    merge_subwords text pre ++ [merged text head (last conts c)].
Proof.
  intros text pre head c conts Hhead Hconts.
  unfold merge_subwords at 1.
  change (pre ++ head :: c :: conts) with (pre ++ [head] ++ c :: conts).
  rewrite app_assoc, fold_left_app.
  fold (merge_subwords text (pre ++ [head])).
  rewrite merge_subwords_snoc, merge_step_append.
  - apply merge_run; exact Hconts.
  - destruct Hhead as [H | ->]; [left; exact H | right; reflexivity].
Qed.

Lemma X1_merge_run_witness :
  merge_subwords (lit "ali turkcell") ali_turkcell =
  [mkEntity (lit "PER") (lit "Ali") 0 3;
   mkEntity ORG (lit "turkcell") 4 12].
Proof.
  refine (X1_merge_run (lit "ali turkcell")
            [mkEntity (lit "PER") (lit "Ali") 0 3]
            (mkEntity ORG (lit "Tur") 4 7)
            (mkEntity (lit "PER") (lit "##k") 7 8)
            [mkEntity ORG (lit "##cell") 8 12] _ _).
  - left; reflexivity.
  - repeat constructor.
Defined.

Lemma merge_fold_length text tags :
  forall combined,
    combined <> [] ->
    length (fold_left (merge_step text) tags combined) =
    (length combined + length (filter is_head tags))%nat.
Proof.
  induction tags as [|tag tags IH]; intros combined Hne; simpl; [lia|].
  destruct (snoc_cases combined) as [-> | (l & prev & ->)]; [congruence|].
  unfold is_head at 1; destruct (is_continuation tag) eqn:Hc; simpl.
  - rewrite merge_step_extend by exact Hc.
    rewrite IH by (intros E; apply app_eq_nil in E; destruct E; discriminate).
    rewrite !length_app; reflexivity.
  - rewrite merge_step_append by (left; exact Hc).
    rewrite IH by (intros E; apply app_eq_nil in E; destruct E; discriminate).
    rewrite !length_app; simpl; lia.
Qed.

(** X2. The merged list has one entity for the first piece, continuation
    or not, and one for each later piece that is not a continuation; so it
    is never longer than the output of the tagger. *)
Theorem X2_merge_length :
  forall text tags,
    length (merge_subwords text tags) =
      match tags with
      | [] => 0%nat
      | _ :: rest => S (length (filter is_head rest))
      end
    /\ (length (merge_subwords text tags) <= length tags)%nat.
Proof.
  intros text tags.
  assert (E : length (merge_subwords text tags) =
              match tags with
              | [] => 0%nat
              | _ :: rest => S (length (filter is_head rest))
              end).
  { destruct tags as [|tag rest]; [reflexivity|].
    unfold merge_subwords; cbn [fold_left].
    rewrite (merge_step_append text [] tag) by (right; reflexivity).
    rewrite merge_fold_length by discriminate; reflexivity. }
  split; [exact E|].
  rewrite E; destruct tags as [|tag rest]; [lia|].
  simpl; pose proof (filter_length_le is_head rest); lia.
Qed.

Lemma merge_fold_heads text tags :
  forall combined,
    Forall (fun e => is_continuation e = false) tags ->
    fold_left (merge_step text) tags combined = combined ++ tags.
Proof.
  induction tags as [|tag tags IH]; intros combined H; simpl.
  - symmetry; apply app_nil_r.
  - inversion H; subst.
    rewrite merge_step_append by (left; assumption).
    rewrite IH by assumption.
    rewrite <- app_assoc; reflexivity.
Qed.

(** X3. When no piece is a continuation the merge loop returns the output
    of the tagger as it is, for whatever text: no word is sliced again. *)
Theorem X3_merge_without_marker :
  forall text tags,
    Forall (fun e => is_continuation e = false) tags ->
    merge_subwords text tags = tags.
Proof.
  intros text tags H; unfold merge_subwords.
  rewrite merge_fold_heads by exact H; reflexivity.
Qed.

Lemma X3_merge_without_marker_witness :
  merge_subwords (lit "turk cell") (turk_and_cell []) = turk_and_cell [].
Proof.
  apply X3_merge_without_marker; repeat constructor.
Defined.

(** ** The sorted organisation list *)

Lemma insert_by_start_starting_at (k : Z) (x : Entity) (l : list Entity) :
  starting_at k (insert_by_start x l) = starting_at k (x :: l).
Proof.
  induction l as [|y l IH]; [reflexivity|].
  cbn [insert_by_start].
  destruct (Z.leb_spec (start x) (start y)) as [Hle | Hlt]; [reflexivity|].
  unfold starting_at in *; cbn [filter] in *; rewrite IH.
  destruct (Z.eqb_spec (start x) k), (Z.eqb_spec (start y) k);
    try reflexivity; lia.
Qed.

Lemma start_le_trans : Relations_1.Transitive start_le.
Proof. intros a b c; unfold start_le; lia. Qed.

Lemma sorted_by_start_strongly (l : list Entity) :
  StronglySorted start_le (sorted_by_start l).
Proof.
  apply Sorted_StronglySorted; [exact start_le_trans|].
  apply Sorted_LocallySorted_iff, sorted_by_start_sorted.
Qed.

(** X4. The organisations are sorted as Python sorts them: the sorted list
    has the same entities, their starts never decrease along it, and the
    entities that share a start come in the order they had before, so an
    entity of the tagger stays ahead of an injected mention that starts at
    the same place. *)
Theorem X4_sorted_by_start :
  forall l,
    Permutation l (sorted_by_start l)
    /\ StronglySorted start_le (sorted_by_start l)
    /\ forall k, starting_at k (sorted_by_start l) = starting_at k l.
Proof.
  intros l; split; [apply sorted_by_start_perm | split].
  - apply sorted_by_start_strongly.
  - intros k; induction l as [|x l IH]; [reflexivity|].
    cbn [sorted_by_start]; rewrite insert_by_start_starting_at.
    unfold starting_at in *; cbn [filter]; rewrite IH; reflexivity.
Qed.

(** ** Bounds *)

Lemma len_context_of text end_idx :
  len (context_of text end_idx) <= context_window_size.
Proof.
  unfold context_of, context_window_size, slice, clamp, len.
  rewrite length_firstn.
  set (n := Z.of_nat (length text)).
  assert (0 <= n) by (unfold n; lia).
  destruct (Z.ltb_spec end_idx 0), (Z.ltb_spec (Z.min n (end_idx + 10)) 0);
    lia.
Qed.

Lemma sentiment_calls_map {A} (f : A -> str) (l : list A) :
  sentiment_calls (map (fun c => SentimentCall (f c)) l) = map f l.
Proof.
  induction l as [|x l IH]; [reflexivity|].
  change (sentiment_calls (map (fun c => SentimentCall (f c)) (x :: l)))
    with (f x :: sentiment_calls (map (fun c => SentimentCall (f c)) l)).
  rewrite IH; reflexivity.
Qed.

Lemma predict_sentiment_calls capitalize ner_pipeline sentiment_pipeline text :
  sentiment_calls
    (calls (predict capitalize ner_pipeline sentiment_pipeline text)) =
  map (fun c => context_of text (cluster_end c))
      (clusters (organizations_of text (ner_pipeline (capitalize text)))).
Proof.
  unfold calls; rewrite predict_clusters; cbn [snd app].
  cbn [sentiment_calls flat_map app].
  apply (sentiment_calls_map (fun c => context_of text (cluster_end c))).
Qed.

(** X5. Whatever spans the tagger returns, negative or past the end of
    the text, the sentiment pipeline is never called on more than ten
    characters. *)
Theorem X5_context_at_most_ten :
  forall capitalize ner_pipeline sentiment_pipeline text,
    Forall (fun context => len context <= 10)
      (sentiment_calls
         (calls (predict capitalize ner_pipeline sentiment_pipeline text))).
Proof.
  intros capitalize ner_pipeline sentiment_pipeline text.
  rewrite predict_sentiment_calls.
  apply Forall_forall; intros context H.
  apply in_map_iff in H; destruct H as (c & <- & _).
  apply len_context_of.
Qed.

Lemma clusters_length (organizations : list Entity) :
  (length (clusters organizations) <= length organizations)%nat.
Proof.
  rewrite <- (clusters_members organizations) at 2.
  induction (clusters organizations) as [|c cs IH]; simpl; [lia|].
  rewrite length_app; simpl; lia.
Qed.

Lemma merge_step_orgs text combined tag :
  (length (filter is_org (merge_step text combined tag)) <=
   length (filter is_org combined) + length (filter is_org [tag]))%nat.
Proof.
  destruct (is_continuation tag) eqn:Hc.
  - destruct (snoc_cases combined) as [-> | (l & prev & ->)].
    + rewrite merge_step_append by (right; reflexivity).
      rewrite filter_app, length_app; lia.
    + rewrite merge_step_extend by exact Hc.
      rewrite !filter_app, !length_app.
      cbn [filter]; unfold is_org at 2 4; cbn [entity_group].
      destruct (str_eqb (entity_group prev) ORG); simpl; lia.
  - rewrite merge_step_append by (left; exact Hc).
    rewrite filter_app, length_app; lia.
Qed.

Lemma merge_subwords_orgs text tags :
  (length (filter is_org (merge_subwords text tags)) <=
   length (filter is_org tags))%nat.
Proof.
  induction tags as [|tag tags IH] using rev_ind; [simpl; lia|].
  rewrite merge_subwords_snoc, filter_app, length_app.
  pose proof (merge_step_orgs text (merge_subwords text tags) tag); lia.
Qed.

(** X6. There is one sentiment call for each result, and there are at
    most as many results as the tagger reported entities of group ORG and
    the text has tokens that start with [@]. *)
Theorem X6_number_of_results :
  forall capitalize ner_pipeline sentiment_pipeline text,
    let run := predict capitalize ner_pipeline sentiment_pipeline text in
    length (sentiment_calls (calls run)) = length (results (value run))
    /\ (length (results (value run)) <=
        length (filter is_org (ner_pipeline (capitalize text))) +
        length (filter is_mention (split text)))%nat.
Proof.
  intros capitalize ner_pipeline sentiment_pipeline text run.
  unfold run; rewrite predict_sentiment_calls.
  unfold value; rewrite predict_clusters; cbn [fst results].
  rewrite !length_map; split; [reflexivity|].
  etransitivity; [apply clusters_length|].
  unfold organizations_of.
  rewrite <- (Permutation_length (sorted_by_start_perm _)).
  rewrite inject_mentions_app, filter_app, length_app.
  pose proof (merge_subwords_orgs text (ner_pipeline (capitalize text))).
  pose proof (filter_length_le is_org
                (map (mention text) (filter is_mention (split text)))) as Hm.
  rewrite length_map in Hm; lia.
Qed.

(** ** What is reported *)

(** X7. Every result names an entity of group ORG of the working list:
    either an entity of the merged list, or the mention injected for a token
    of the text that starts with [@].  Entities of any other group are
    filtered out before the clustering and are never named. *)
Theorem X7_only_organisations :
  forall capitalize ner_pipeline sentiment_pipeline text r,
    In r (results
            (value (predict capitalize ner_pipeline sentiment_pipeline text))) ->
    exists e,
      entity r = word e /\ entity_group e = ORG /\
      (In e (merge_subwords text (ner_pipeline (capitalize text))) \/
       exists token, In token (split text) /\ is_mention token = true /\
                     e = mention text token).
Proof.
  intros capitalize ner_pipeline sentiment_pipeline text r.
  unfold value; rewrite predict_clusters; cbn [fst results].
  intros H; apply in_map_iff in H; destruct H as (c & <- & Hc).
  apply clusters_first_In, organizations_of_In in Hc.
  destruct Hc as [Horg Hfrom].
  exists (first_mention c); split; [reflexivity | split; [|exact Hfrom]].
  apply str_eqb_eq; exact Horg.
Qed.

Lemma X7_only_organisations_witness :
  exists e,
    lit "@Acme" = word e /\ entity_group e = ORG /\
    (In e (merge_subwords (lit "Ali likes @Acme")
             (one_person (ascii_capitalize (lit "Ali likes @Acme")))) \/
     exists token, In token (split (lit "Ali likes @Acme")) /\
                   is_mention token = true /\
                   e = mention (lit "Ali likes @Acme") token).
Proof.
  apply (X7_only_organisations ascii_capitalize one_person (always Neutral)
           (lit "Ali likes @Acme") (mkResult (lit "@Acme") notr)).
  left; reflexivity.
Defined.

Lemma clusters_nil (organizations : list Entity) :
  clusters organizations = [] <-> organizations = [].
Proof.
  split; [|intros ->; reflexivity].
  destruct organizations as [|org rest]; [reflexivity|].
  unfold clusters.
  destruct (clusters_from_head rest org [] (end_ org)) as (c & cs & -> & _).
  discriminate.
Qed.

Lemma members_In (organizations : list Entity) (e : Entity) :
  In e organizations ->
  exists c, In c (clusters organizations) /\ In e (members c).
Proof.
  rewrite <- (clusters_members organizations) at 1.
  intros H; apply in_concat in H; destruct H as (m & Hm & He).
  apply in_map_iff in Hm; destruct Hm as (c & <- & Hc); eauto.
Qed.

(** X8. The two lists are empty exactly when no organisation is left
    after the filter.  A token of the text that starts with [@] is never
    lost: its mention belongs to a cluster, and the lists are not empty. *)
Theorem X8_mentions_are_kept :
  forall capitalize ner_pipeline sentiment_pipeline text,
    let organizations :=
      organizations_of text (ner_pipeline (capitalize text)) in
    let out := value (predict capitalize ner_pipeline sentiment_pipeline text) in
    (results out = [] <-> organizations = [])
    /\ (entity_list out = [] <-> organizations = [])
    /\ forall token,
         In token (split text) -> is_mention token = true ->
         (exists c, In c (clusters organizations) /\
                    In (mention text token) (members c))
         /\ results out <> [] /\ entity_list out <> [].
Proof.
  intros capitalize ner_pipeline sentiment_pipeline text organizations out.
  assert (Hout : out =
            mkOutput (map (fun c => word (first_mention c))
                          (clusters organizations))
              (map (fun c => mkResult (word (first_mention c))
                       (sentiment_text_of
                          (sentiment_pipeline
                             (context_of text (cluster_end c)))))
                   (clusters organizations))).
  { unfold out, value; rewrite predict_clusters; reflexivity. }
  assert (Hres : results out = [] <-> organizations = []).
  { rewrite Hout; cbn [results]; rewrite <- clusters_nil.
    split; [apply map_eq_nil | intros ->; reflexivity]. }
  assert (Hlist : entity_list out = [] <-> organizations = []).
  { rewrite Hout; cbn [entity_list]; rewrite <- clusters_nil.
    split; [apply map_eq_nil | intros ->; reflexivity]. }
  split; [exact Hres | split; [exact Hlist|]].
  intros token Hin Hm.
  assert (Horg : In (mention text token) organizations).
  { apply organizations_of_In; split; [reflexivity | right; eauto]. }
  split; [apply members_In; exact Horg|].
  split; [rewrite Hres | rewrite Hlist]; intros E; rewrite E in Horg;
    destruct Horg.
Qed.

Lemma X8_mentions_are_kept_witness :
  let text := lit "Turk @Cell" in
  let out := value (predict ascii_capitalize turk_and_cell (always Neutral)
                      text) in
  (exists c,
      In c (clusters (organizations_of text
                        (turk_and_cell (ascii_capitalize text)))) /\
      In (mention text (lit "@Cell")) (members c))
  /\ results out <> [] /\ entity_list out <> [].
Proof.
  intros text out.
  apply (X8_mentions_are_kept ascii_capitalize turk_and_cell (always Neutral)
           text).
  - right; left; reflexivity.
  - reflexivity.
Defined.

Lemma split_from_tokens (s : str) :
  forall word tok,
    Forall (fun c => isspace c = false) word ->
    In tok (split_from word s) ->
    tok <> [] /\ Forall (fun c => isspace c = false) tok.
Proof.
  induction s as [|c s IH]; intros word tok Hw Hin.
  - destruct word as [|w word]; simpl in Hin; [contradiction|].
    destruct Hin as [<- | []]; split; [discriminate | exact Hw].
  - simpl in Hin; destruct (isspace c) eqn:Hc.
    + destruct word as [|w word]; [apply (IH [] tok); auto|].
      destruct Hin as [<- | Hin]; [split; [discriminate | exact Hw]|].
      apply (IH [] tok); auto.
    + apply (IH (word ++ [c]) tok); [|exact Hin].
      apply Forall_app; split; [exact Hw | repeat constructor; exact Hc].
Qed.

(** X9. The mention injected for a token that starts with [@] has a span
    that is not empty and as long as the token, and its word begins with
    [@] and holds no white space: a handle ends at the first white space
    after it, whatever punctuation it carries. *)
Theorem X9_mention_shape :
  forall text token,
    In token (split text) -> is_mention token = true ->
    let m := mention text token in
    word m = token
    /\ start m < end_ m
    /\ end_ m - start m = len token
    /\ (exists rest, token = 64 :: rest)
    /\ Forall (fun c => isspace c = false) token.
Proof.
  intros text token Hin Hm m.
  destruct (split_from_tokens text [] token (Forall_nil _) Hin) as [Hne Hws].
  apply startswith_iff in Hm; destruct Hm as [rest Hrest].
  split; [reflexivity | split; [|split; [|split]]].
  - simpl; destruct token; [congruence|].
    unfold len; simpl length; lia.
  - simpl; lia.
  - exists rest; exact Hrest.
  - exact Hws.
Qed.

Lemma X9_mention_shape_witness :
  let m := mention (lit "ask @Acme, now") (lit "@Acme,") in
  word m = lit "@Acme," /\ start m < end_ m /\ end_ m - start m = 6.
Proof.
  intros m.
  destruct (X9_mention_shape (lit "ask @Acme, now") (lit "@Acme,"))
    as (Hw & Hlt & Hlen & _).
  - right; left; reflexivity.
  - reflexivity.
  - split; [exact Hw | split; [exact Hlt | exact Hlen]].
Defined.

(** ** The loops *)

(** X10. The two nested loops over the index [i] end for every list of
    organisations: one test of the outer condition per mention and one more
    suffice, and what they leave is what the recursion on the list
    computes, calls included. *)
Theorem X10_loops_terminate :
  forall sentiment_pipeline text organizations acc log,
    exists lists log',
      while_loops sentiment_pipeline text organizations acc log =
        (Some lists, log')
      /\ cluster_loop sentiment_pipeline text organizations acc log =
        (lists, log')
      /\ (length (fst lists) =
          length (fst acc) + length (clusters organizations))%nat.
Proof.
  intros sentiment_pipeline text organizations acc log.
  rewrite cluster_loop_while, cluster_loop_clusters; cbv zeta.
  eexists _, _; split; [reflexivity | split; [reflexivity|]].
  cbn [fst]; rewrite length_app, length_map; reflexivity.
Qed.

Lemma clusters_from_chained_run (rest : list Entity) :
  forall org taken,
    chained (last taken org) rest ->
    clusters_from org taken (end_ (last taken org)) rest =
    [mkCluster org (taken ++ rest) (end_ (last (taken ++ rest) org))].
Proof.
  induction rest as [|next rest IH]; intros org taken H.
  - rewrite app_nil_r; reflexivity.
  - destruct H as [Hgap H]; cbn [clusters_from].
    destruct (Z.leb_spec (start next - end_ (last taken org)) 1); [|lia].
    specialize (IH org (taken ++ [next])).
    rewrite last_last, <- app_assoc in IH; apply IH; exact H.
Qed.

(** X11. Any number of mentions chained by gaps of at most one, overlaps
    included, give a single result: it carries the word of the first
    mention, and its context starts at the end of the last one. *)
Theorem X11_chained_run :
  forall sentiment_pipeline text org rest,
    chained org rest ->
    let run := cluster_loop sentiment_pipeline text (org :: rest) ([], []) in
    let context := context_of text (end_ (last rest org)) in
    clusters (org :: rest) = [mkCluster org rest (end_ (last rest org))]
    /\ value run =
         ([word org],
          [mkResult (word org)
             (sentiment_text_of (sentiment_pipeline context))])
    /\ calls run = [SentimentCall context].
Proof.
  intros sentiment_pipeline text org rest H run context.
  assert (E : clusters (org :: rest) =
              [mkCluster org rest (end_ (last rest org))])
    by (apply (clusters_from_chained_run rest org [] H)).
  split; [exact E|].
  unfold run, value, calls; rewrite cluster_loop_clusters, E.
  split; reflexivity.
Qed.

Lemma X11_chained_run_witness :
  let text := lit "Turk Cell A.S. is slow" in
  let turk := mkEntity ORG (lit "Turk") 0 4 in
  let cell := mkEntity ORG (lit "Cell") 5 9 in
  let as_ := mkEntity ORG (lit "A.S.") 10 14 in
  value (cluster_loop (always Negative) text [turk; cell; as_] ([], [])) =
    ([lit "Turk"], [mkResult (lit "Turk") olumsuz]) /\
  calls (cluster_loop (always Negative) text [turk; cell; as_] ([], [])) =
    [SentimentCall (lit " is slow")].
Proof.
  intros text turk cell as_.
  refine (proj2 (X11_chained_run (always Negative) text turk [cell; as_] _)).
  simpl; lia.
Defined.

Lemma clusters_from_apart (rest : list Entity) :
  forall org,
    apart org rest ->
    clusters_from org [] (end_ org) rest = map alone (org :: rest).
Proof.
  induction rest as [|next rest IH]; intros org H; [reflexivity|].
  destruct H as [Hgap H]; cbn [clusters_from].
  destruct (Z.leb_spec (start next - end_ org) 1); [lia|].
  rewrite (IH next H); reflexivity.
Qed.

(** X12. Mentions that lie more than one apart from each other are each
    reported on their own, in the order of the list, each with the context
    that starts at its own end. *)
Theorem X12_mentions_apart :
  forall sentiment_pipeline text org rest,
    apart org rest ->
    let run := cluster_loop sentiment_pipeline text (org :: rest) ([], []) in
    let context e := context_of text (end_ e) in
    value run =
      (map word (org :: rest),
       map (fun e => mkResult (word e)
                       (sentiment_text_of (sentiment_pipeline (context e))))
           (org :: rest))
    /\ calls run = map (fun e => SentimentCall (context e)) (org :: rest).
Proof.
  intros sentiment_pipeline text org rest H run context.
  unfold run, value, calls; rewrite cluster_loop_clusters.
  unfold clusters; rewrite (clusters_from_apart rest org H).
  cbv zeta; cbn [fst snd app]; rewrite !map_map.
  split; reflexivity.
Qed.

Lemma X12_mentions_apart_witness :
  let text := lit "Acme is fine, Bolt is slow" in
  let acme := mkEntity ORG (lit "Acme") 0 4 in
  let bolt := mkEntity ORG (lit "Bolt") 14 18 in
  value (cluster_loop (always Positive) text [acme; bolt] ([], [])) =
    ([lit "Acme"; lit "Bolt"],
     [mkResult (lit "Acme") olumlu; mkResult (lit "Bolt") olumlu]) /\
  calls (cluster_loop (always Positive) text [acme; bolt] ([], [])) =
    [SentimentCall (lit " is fine, "); SentimentCall (lit " is slow")].
Proof.
  intros text acme bolt.
  refine (X12_mentions_apart (always Positive) text acme [bolt] _).
  simpl; lia.
Defined.

(** ** Order of the results *)

Lemma sorted_app_r (l1 l2 : list Entity) :
  StronglySorted start_le (l1 ++ l2) -> StronglySorted start_le l2.
Proof.
  induction l1 as [|x l1 IH]; intros H; [exact H|].
  apply IH; inversion H; assumption.
Qed.

Lemma sorted_app_l (l1 l2 : list Entity) :
  StronglySorted start_le (l1 ++ l2) -> StronglySorted start_le l1.
Proof.
  induction l1 as [|x l1 IH]; intros H; [constructor|].
  inversion H as [|? ? Hs Hall]; subst; constructor; [apply IH; exact Hs|].
  apply Forall_app in Hall; tauto.
Qed.

Lemma firsts_sorted (cs : list Cluster) :
  StronglySorted start_le (concat (map members cs)) ->
  StronglySorted start_le (map first_mention cs).
Proof.
  induction cs as [|c cs IH]; intros H; [constructor|].
  cbn [map concat] in H; unfold members at 1 in H; cbn [app] in H.
  inversion H as [|? ? Hs Hall]; subst.
  apply sorted_app_r in Hs; apply Forall_app in Hall; destruct Hall as [_ Hall].
  cbn [map]; constructor; [apply IH; exact Hs|].
  apply Forall_forall; intros e He.
  apply in_map_iff in He; destruct He as (c' & <- & Hc').
  rewrite Forall_forall in Hall; apply Hall.
  apply in_concat; exists (members c'); split;
    [apply in_map; exact Hc' | left; reflexivity].
Qed.

(** X13. The results follow the text: the first mentions of the clusters,
    whose words are reported, come with starts that never decrease. *)
Theorem X13_results_in_text_order :
  forall capitalize ner_pipeline sentiment_pipeline text,
    let cs := clusters (organizations_of text (ner_pipeline (capitalize text))) in
    let out := value (predict capitalize ner_pipeline sentiment_pipeline text) in
    entity_list out = map word (map first_mention cs)
    /\ map entity (results out) = map word (map first_mention cs)
    /\ StronglySorted start_le (map first_mention cs).
Proof.
  intros capitalize ner_pipeline sentiment_pipeline text cs out.
  unfold out, value; rewrite predict_clusters; cbn [fst entity_list results].
  rewrite !map_map; split; [reflexivity | split; [reflexivity|]].
  apply firsts_sorted; unfold cs; rewrite clusters_members.
  apply sorted_by_start_strongly.
Qed.

(** ** Clusters of well-formed spans *)

Lemma last_Forall (P : Entity -> Prop) (l : list Entity) (d : Entity) :
  Forall P l -> P d -> P (last l d).
Proof.
  revert d; induction l as [|x l IH]; intros d Hl Hd; [exact Hd|].
  rewrite last_cons; inversion Hl; subst; apply IH; assumption.
Qed.

Lemma sorted_last (m : list Entity) :
  StronglySorted start_le m ->
  forall d e, In e m -> start e <= start (last m d).
Proof.
  induction m as [|x m IH]; intros H d e He; [destruct He|].
  inversion H as [|? ? Hs Hall]; subst; rewrite last_cons.
  destruct He as [<- | He]; [|apply IH; assumption].
  apply (last_Forall (fun y => start x <= start y)); [exact Hall | lia].
Qed.

Lemma members_sorted (organizations : list Entity) (c : Cluster) :
  StronglySorted start_le organizations ->
  In c (clusters organizations) ->
  StronglySorted start_le (members c).
Proof.
  intros H Hc; rewrite <- (clusters_members organizations) in H.
  apply in_split in Hc; destruct Hc as (l1 & l2 & E); rewrite E in H.
  rewrite map_app, concat_app in H; apply sorted_app_r in H.
  cbn [map concat] in H; apply sorted_app_l in H; exact H.
Qed.

Lemma members_within (organizations : list Entity) (c : Cluster) (e : Entity) :
  StronglySorted start_le organizations ->
  Forall well_formed organizations ->
  In c (clusters organizations) -> In e (members c) ->
  start (first_mention c) <= start e <= cluster_end c.
Proof.
  intros Hs Hwf Hc He.
  pose proof (members_sorted organizations c Hs Hc) as Hm.
  assert (Hin : forall x, In x (members c) -> In x organizations).
  { intros x Hx; rewrite <- (clusters_members organizations).
    apply in_concat; exists (members c); split; [apply in_map|]; assumption. }
  split.
  - unfold members in *; inversion Hm as [|? ? _ Hall]; subst.
    destruct He as [<- | He]; [lia|].
    rewrite Forall_forall in Hall; apply Hall; exact He.
  - rewrite (clusters_end organizations c Hc).
    pose proof (sorted_last (members c) Hm (first_mention c) e He) as Hle.
    unfold members in Hle at 1; rewrite last_cons in Hle.
    assert (Hw : well_formed (last (absorbed c) (first_mention c))).
    { rewrite Forall_forall in Hwf; apply Hwf, Hin.
      rewrite <- (last_cons (absorbed c) (first_mention c) (first_mention c)).
      apply (last_Forall (fun x => In x (members c))).
      - apply Forall_forall; intros x Hx; exact Hx.
      - left; reflexivity. }
    unfold well_formed in Hw; lia.
Qed.

Lemma separated_before (cs : list Cluster) :
  separated cs ->
  (forall c, In c cs -> start (first_mention c) <= cluster_end c) ->
  StronglySorted before cs.
Proof.
  induction cs as [|c cs IH]; intros Hsep Hwf; [constructor|].
  destruct Hsep as [Hnext Hsep].
  assert (Hs : StronglySorted before cs)
    by (apply IH; [exact Hsep | intros x Hx; apply Hwf; right; exact Hx]).
  constructor; [exact Hs|].
  destruct cs as [|c' cs]; [constructor|].
  inversion Hs as [|? ? _ Hall]; subst.
  constructor; [exact Hnext|].
  pose proof (Hwf c' (or_intror (or_introl eq_refl))) as Hc'.
  apply Forall_forall; intros c'' Hc''.
  rewrite Forall_forall in Hall; specialize (Hall c'' Hc'').
  unfold before in *; lia.
Qed.

Lemma before_cases (cs : list Cluster) (a b : Cluster) :
  StronglySorted before cs -> In a cs -> In b cs ->
  a = b \/ before a b \/ before b a.
Proof.
  induction 1 as [|c cs Hs IH Hall]; intros Ha Hb; [destruct Ha|].
  rewrite Forall_forall in Hall.
  destruct Ha as [<- | Ha], Hb as [<- | Hb]; auto.
Qed.

(** X14. When no span of the sorted list ends before it starts, the
    clusters are intervals of the text that follow one another: every
    member of a cluster starts between the start of its first mention and
    the end of the cluster, each cluster ends more than one before any later
    one starts, and entities that start at the same place, such as the
    mentions of a handle that occurs twice, are in the same cluster. *)
Theorem X14_clusters_are_intervals :
  forall l,
    Forall well_formed l ->
    let cs := clusters (sorted_by_start l) in
    (forall c e, In c cs -> In e (members c) ->
       start (first_mention c) <= start e <= cluster_end c)
    /\ StronglySorted before cs
    /\ forall c c' e e',
         In c cs -> In c' cs -> In e (members c) -> In e' (members c') ->
         start e = start e' -> c = c'.
Proof.
  intros l Hwf cs.
  assert (Hs : StronglySorted start_le (sorted_by_start l))
    by apply sorted_by_start_strongly.
  assert (Hw : Forall well_formed (sorted_by_start l)).
  { apply Forall_forall; intros x Hx.
    rewrite Forall_forall in Hwf; apply Hwf, sorted_by_start_In; exact Hx. }
  assert (Hin : forall c e, In c cs -> In e (members c) ->
                  start (first_mention c) <= start e <= cluster_end c).
  { intros c e; apply members_within; assumption. }
  assert (Hb : StronglySorted before cs).
  { apply separated_before; [apply clusters_separated|].
    intros c Hc.
    pose proof (Hin c (first_mention c) Hc (or_introl eq_refl)); lia. }
  split; [exact Hin | split; [exact Hb|]].
  intros c c' e e' Hc Hc' He He' Heq.
  pose proof (Hin c e Hc He); pose proof (Hin c' e' Hc' He').
  destruct (before_cases cs c c' Hb Hc Hc') as [E | [E | E]];
    [exact E | unfold before in E; lia | unfold before in E; lia].
Qed.

Lemma X14_clusters_are_intervals_witness :
  let text := lit "@a, @a and Bolt" in
  let handle := mention text (lit "@a") in
  let bolt := mkEntity ORG (lit "Bolt") 11 15 in
  let c := mkCluster handle [handle] 2 in
  clusters (sorted_by_start [bolt; handle; handle]) = [c; alone bolt] /\
  start (first_mention c) <= start handle <= cluster_end c /\
  (start handle = start handle -> c = c).
Proof.
  intros text handle bolt c.
  assert (Hwf : Forall well_formed [bolt; handle; handle]).
  { repeat (apply Forall_cons; [apply Z.leb_le; reflexivity|]).
    apply Forall_nil. }
  destruct (X14_clusters_are_intervals [bolt; handle; handle] Hwf)
    as (Hin & _ & Hsame).
  split; [reflexivity | split].
  - apply Hin; [left; reflexivity | left; reflexivity].
  - apply (Hsame c c handle handle);
      (left; reflexivity) || (right; left; reflexivity).
Defined.

(** ** Slices of the text *)

Lemma slice_piece_of (s : str) (i j : Z) : piece_of s (slice s i j).
Proof.
  unfold slice, piece_of.
  set (lo := Z.to_nat (clamp (len s) i)).
  set (n := Z.to_nat (clamp (len s) j - clamp (len s) i)).
  exists (firstn lo s), (skipn n (skipn lo s)).
  rewrite (firstn_skipn n (skipn lo s)), (firstn_skipn lo s); reflexivity.
Qed.

Lemma piece_of_len (text s : str) : piece_of text s -> len s <= len text.
Proof.
  intros (pre & post & ->); rewrite !len_app.
  pose proof (len_nonneg pre); pose proof (len_nonneg post); lia.
Qed.

(** X15. No offset makes a slice fail or invent text: whatever spans the
    tagger returns, each context sent to the sentiment pipeline is a
    contiguous piece of the original text, and each reported name is either
    such a piece, no longer than the text, or the word of an entity exactly
    as the tagger returned it. *)
Theorem X15_pieces_of_the_text :
  forall capitalize ner_pipeline sentiment_pipeline text,
    let run := predict capitalize ner_pipeline sentiment_pipeline text in
    Forall (piece_of text) (sentiment_calls (calls run))
    /\ forall name,
         In name (entity_list (value run)) ->
         (exists t, In t (ner_pipeline (capitalize text)) /\ word t = name) \/
         (piece_of text name /\ len name <= len text).
Proof.
  intros capitalize ner_pipeline sentiment_pipeline text run; split.
  - unfold run; rewrite predict_sentiment_calls.
    apply Forall_forall; intros context H.
    apply in_map_iff in H; destruct H as (c & <- & _).
    apply slice_piece_of.
  - intros name; unfold run, value; rewrite predict_clusters.
    cbn [fst entity_list]; intros H.
    apply in_map_iff in H; destruct H as (c & <- & Hc).
    apply clusters_first_In, organizations_origin in Hc.
    destruct Hc as [Hc | (i & j & E)]; [left; eauto | right].
    assert (P : piece_of text (word (first_mention c)))
      by (rewrite E; apply slice_piece_of).
    split; [exact P | apply piece_of_len; exact P].
Qed.

Lemma X15_pieces_of_the_text_witness :
  let text := lit "turkcell enjoyed" in
  (exists t, In t (turk_cell (ascii_capitalize text)) /\
             word t = lit "turkcell") \/
  (piece_of text (lit "turkcell") /\ len (lit "turkcell") <= len text).
Proof.
  intros text.
  apply (X15_pieces_of_the_text ascii_capitalize turk_cell (always Neutral)
           text).
  left; reflexivity.
Defined.
